(** * Verification of the tub cleaning tool (clean_image.py)

    A shallow embedding of [clean_image.py]: the manifest reader and the
    textual patch of its [deleted_indexes] field, the per-record image
    checks, the zero-angle run detector and the command entry point,
    followed by the properties proved about them.

    Modelling conventions.
    - Text is a list of ASCII characters.  The manifest is written by
      [json.dumps], which escapes everything outside ASCII.
    - The manifest is kept as the bytes of its file.  It is read in text
      mode, where a carriage return, with or without a line feed after
      it, becomes a line feed, and written as on a POSIX system, where
      text mode writes the characters as they are.
    - Python floats and numpy's float64 are IEEE-754 binary64 numbers,
      modelled by the Standard Library's [spec_float] with precision 53
      and maximal exponent 1024.
    - A catalog line either fails to parse or is a JSON object with an
      integer '_index', an optional image name and an optional angle.
    - The file system and the image decoders are oracles collected in a
      [World]; every call that touches them is recorded in a trace of
      events, and the manifest left on disk is obtained by replaying the
      write events of that trace.
    - An uncaught Python exception is the [Raise] result of the monad.
    - [servo.py] is modelled by the calls it makes to the PWM driver. *)

From Stdlib Require Import ZArith List Ascii String Lia SpecFloat.
From stdpp Require Import base option list sorting gmap pretty.
From Equations Require Import Equations.
Import ListNotations.

Local Open Scope Z_scope.
Local Open Scope list_scope.

(** ** Binary64 floating point numbers *)

Module F64.

Definition prec : Z := 53.
Definition emax : Z := 1024.

Definition float : Type := spec_float.

Definition zero : float := S754_zero false.
Definition abs (x : float) : float := SFabs x.
Definition add (x y : float) : float := SFadd prec emax x y.
Definition div (x y : float) : float := SFdiv prec emax x y.
Definition ltb (x y : float) : bool := SFltb x y.
Definition leb (x y : float) : bool := SFleb x y.
Definition gtb (x y : float) : bool := SFltb y x.

(** Conversion of a Python int, rounding to nearest even. *)
Definition of_Z (z : Z) : float := binary_normalize prec emax z 0 false.

(** The literal [0.05], that is [0x1.999999999999ap-5]. *)
Definition c0_05 : float := S754_finite false 7205759403792794 (-57).
(** The literal [0.1], that is [0x1.999999999999ap-4]. *)
Definition c0_1 : float := S754_finite false 7205759403792794 (-56).

(** [sum(xs)]: Python starts from the int [0] and adds from the left.
    CPython 3.12 and later compensate the rounding errors of a sum of
    floats; nothing proved below depends on how the sum is rounded. *)
Definition sum (xs : list float) : float := fold_left add xs zero.

(** [sum(xs) / len(xs) if xs else 0] *)
Definition mean_or_zero (xs : list float) : float :=
  match xs with
  | [] => zero
  | _ :: _ => div (sum xs) (of_Z (Z.of_nat (length xs)))
  end.

End F64.

(** ** Text *)

Module Text.

Definition text : Type := list ascii.

Definition lit (s : string) : text := list_ascii_of_string s.

Definition dquote : ascii := "034"%char.
Definition newline : ascii := "010"%char.
Definition comma : ascii := ","%char.
Definition rbracket : ascii := "]"%char.
Definition carriage_return : ascii := "013"%char.

(** [s.startswith(p)], returning what follows the prefix. *)
Fixpoint strip_prefix (p s : text) : option text :=
  match p, s with
  | [], _ => Some s
  | a :: p', b :: s' => if Ascii.eqb a b then strip_prefix p' s' else None
  | _ :: _, [] => None
  end.

(** [p in s] *)
Fixpoint contains (p s : text) : bool :=
  match strip_prefix p s with
  | Some _ => true
  | None => match s with
            | [] => false
            | _ :: s' => contains p s'
            end
  end.

(** [s.split(sep)] for a separator of one character. *)
Fixpoint split (sep : ascii) (s : text) : list text :=
  match s with
  | [] => [[]]
  | c :: s' =>
      if Ascii.eqb c sep then [] :: split sep s'
      else match split sep s' with
           | [] => [[c]]
           | l :: ls => (c :: l) :: ls
           end
  end.

(** Python's whitespace in the ASCII range: TAB, LF, VT, FF, CR, FS, GS,
    RS, US and the space. *)
Definition is_space (c : ascii) : bool :=
  let n := nat_of_ascii c in
  ((9 <=? n)%nat && (n <=? 13)%nat) || ((28 <=? n)%nat && (n <=? 32)%nat).

Fixpoint lstrip (s : text) : text :=
  match s with
  | [] => []
  | c :: s' => if is_space c then lstrip s' else s
  end.

Definition rstrip (s : text) : text := rev (lstrip (rev s)).

(** [s.strip()] *)
Definition strip (s : text) : text := rstrip (lstrip s).

Definition digit_val (c : ascii) : option Z :=
  let n := nat_of_ascii c in
  if (48 <=? n)%nat && (n <=? 57)%nat then Some (Z.of_nat n - 48) else None.

(** The digits after the first one; an underscore must stand between two
    digits. *)
Fixpoint int_digits (acc : Z) (s : text) : option Z :=
  match s with
  | [] => Some acc
  | c :: s' =>
      if Ascii.eqb c "_" then
        match s' with
        | d :: s'' =>
            match digit_val d with
            | Some v => int_digits (acc * 10 + v) s''
            | None => None
            end
        | [] => None
        end
      else
        match digit_val c with
        | Some v => int_digits (acc * 10 + v) s'
        | None => None
        end
  end.

Definition int_unsigned (s : text) : option Z :=
  match s with
  | d :: s' =>
      match digit_val d with
      | Some v => int_digits v s'
      | None => None
      end
  | [] => None
  end.

(** The whitespace [int] skips at both ends of an ASCII string: TAB, LF,
    VT, FF, CR and the space.  FS, GS, RS and US, which [str.strip]
    removes, make [int] raise. *)
Definition is_int_space (c : ascii) : bool :=
  let n := nat_of_ascii c in
  ((9 <=? n)%nat && (n <=? 13)%nat) || (n =? 32)%nat.

Fixpoint int_lstrip (s : text) : text :=
  match s with
  | [] => []
  | c :: s' => if is_int_space c then int_lstrip s' else s
  end.

Definition int_strip (s : text) : text := rev (int_lstrip (rev (int_lstrip s))).

(** [int(s)] in base ten; [None] stands for [ValueError]. *)
Definition py_int (s : text) : option Z :=
  match int_strip s with
  | c :: s' =>
      if Ascii.eqb c "-" then Z.opp <$> int_unsigned s'
      else if Ascii.eqb c "+" then int_unsigned s'
      else int_unsigned (c :: s')
  | [] => None
  end.

(** What [open(path, 'r').read()] makes of the bytes of a file: with
    universal newlines, a carriage return, with or without a line feed
    after it, is read as one line feed. *)
Fixpoint read_text (bytes : text) : text :=
  match bytes with
  | [] => []
  | c :: rest =>
      if Ascii.eqb c carriage_return then
        newline :: match rest with
                   | d :: rest' =>
                       if Ascii.eqb d newline then read_text rest'
                       else read_text rest
                   | [] => []
                   end
      else c :: read_text rest
  end.

(** [str(z)] *)
Definition py_str (z : Z) : text := lit (pretty z).

(** [sep.join(parts)] *)
Fixpoint join (sep : text) (parts : list text) : text :=
  match parts with
  | [] => []
  | [p] => p
  | p :: ps => p ++ sep ++ join sep ps
  end.

(** What [json.dumps] puts between the brackets of a list of ints. *)
Definition dumps_body (l : list Z) : text := join (lit ", ") (map py_str l).

(** [json.dumps(l)] for a list of ints. *)
Definition json_dumps (l : list Z) : text := lit "[" ++ dumps_body l ++ lit "]".

End Text.

(** ** The manifest and its [deleted_indexes] field *)

Module Manifest.
Import Text.

(** The substring looked for in every line: ["deleted_indexes":] with its
    quotes. *)
Definition field_marker : text :=
  dquote :: lit "deleted_indexes" ++ dquote :: lit ":".

(** The literal head of the pattern ["deleted_indexes": \[(.*?)\]]. *)
Definition field_open : text := field_marker ++ lit " [".

(** [(.*?)\]]: the shortest stretch of characters other than a newline
    that is followed by a closing bracket.  Returns the group and what
    follows the bracket. *)
Fixpoint lazy_to_bracket (s : text) : option (text * text) :=
  match s with
  | [] => None
  | c :: s' =>
      if Ascii.eqb c rbracket then Some ([], s')
      else if Ascii.eqb c newline then None
      else match lazy_to_bracket s' with
           | Some (g, rest) => Some (c :: g, rest)
           | None => None
           end
  end.

(** The pattern matched at the very start of [s]. *)
Definition match_here (s : text) : option (text * text) :=
  match strip_prefix field_open s with
  | Some s' => lazy_to_bracket s'
  | None => None
  end.

(** [re.search(pattern, s)]: the leftmost match, as what precedes it, its
    group and what follows it. *)
Fixpoint re_search (s : text) : option (text * text * text) :=
  match match_here s with
  | Some (g, rest) => Some ([], g, rest)
  | None =>
      match s with
      | [] => None
      | c :: s' =>
          match re_search s' with
          | Some (pre, g, rest) => Some (c :: pre, g, rest)
          | None => None
          end
      end
  end.

Definition inspect {A} (a : A) : {b | a = b} := exist _ a eq_refl.

(** [re.sub(pattern, repl, s)]: every match, found from left to right
    and never overlapping, is replaced by [repl].  The replacement of
    line 230 holds no backslash, so it is inserted as it is. *)
Equations? re_sub (repl s : text) : text by wf (length s) lt :=
  re_sub repl s with inspect (re_search s) := {
    | exist _ (Some (pre, g, rest)) _ => pre ++ repl ++ re_sub repl rest
    | exist _ None _ => s }.
Proof.
  (* What follows a match is shorter than the text searched. *)
  assert (Hprefix : forall p t t' : text,
             strip_prefix p t = Some t' -> (length t' <= length t)%nat).
  { induction p as [|a p IH]; intros [|b t] t' H; simpl in *;
      try discriminate.
    - injection H as <-. simpl. lia.
    - injection H as <-. simpl. lia.
    - destruct (Ascii.eqb a b); [|discriminate]. apply IH in H. lia. }
  assert (Hlazy : forall t g' r' : text,
             lazy_to_bracket t = Some (g', r') -> (length r' < length t)%nat).
  { induction t as [|c t IH]; intros g' r' H; simpl in *; [discriminate|].
    destruct (Ascii.eqb c rbracket).
    - injection H as <- <-. lia.
    - destruct (Ascii.eqb c newline); [discriminate|].
      destruct (lazy_to_bracket t) as [[g'' r'']|]; [|discriminate].
      injection H as <- <-. specialize (IH _ _ eq_refl). lia. }
  clear re_sub. revert pre e.
  induction s as [|c s IH]; intros pre H; simpl in H.
  - unfold match_here in H. simpl in H. discriminate.
  - destruct (match_here (c :: s)) as [[g' r']|] eqn:Hm.
    + injection H as <- <- <-. unfold match_here in Hm.
      destruct (strip_prefix field_open (c :: s)) as [s'|] eqn:Hp;
        [|discriminate].
      apply Hprefix in Hp. apply Hlazy in Hm. lia.
    + destruct (re_search s) as [[[p' g'] r']|]; [|discriminate].
      injection H as <- <- <-. specialize (IH _ eq_refl). simpl. lia.
Qed.

(** The group of the pattern read as a list of ints:
    [set(int(idx.strip()) for idx in indexes.split(','))], left alone
    when the stripped group is empty. *)
Definition parse_indexes (group : text) : option (gset Z) :=
  match strip group with
  | [] => Some ∅
  | indexes => list_to_set <$> mapM (fun idx => py_int (strip idx)) (split comma indexes)
  end.

(** The loop over the lines of the manifest: the first line holding the
    marker decides, and the loop stops there. *)
Fixpoint read_deleted_lines (lines : list text) : option (gset Z) :=
  match lines with
  | [] => Some ∅
  | line :: lines' =>
      if contains field_marker line then
        match re_search line with
        | Some (_, group, _) => parse_indexes group
        | None => Some ∅
        end
      else read_deleted_lines lines'
  end.

(** Lines 115 to 126: the deletion index of a manifest; [None] when
    [int] raises. *)
Definition read_deleted (manifest_content : text) : option (gset Z) :=
  read_deleted_lines (split newline manifest_content).

(** [sorted(list(deleted_indexes))] *)
Definition sorted_indexes (deleted_indexes : gset Z) : list Z :=
  merge_sort Z.le (elements deleted_indexes).

(** The replacement text of line 230. *)
Definition replacement (deleted_indexes : gset Z) : text :=
  field_marker ++ lit " " ++ json_dumps (sorted_indexes deleted_indexes).

(** Line 231: the new content of the manifest. *)
Definition patch (manifest_content : text) (deleted_indexes : gset Z) : text :=
  re_sub (replacement deleted_indexes) manifest_content.

End Manifest.

(** ** Effects: exceptions and the trace of calls to the outside *)

Module Effects.
Import Text.

(** The calls that leave the program: [os.path.exists] on an image path,
    [Image.open] with [verify], [cv2.imread], and the write of the
    manifest. *)
Inductive Event : Type :=
| EvExists (path : text)
| EvVerify (path : text)
| EvImread (path : text)
| EvWriteManifest (content : text).

Inductive Exn : Type := ValueError | IndexError | OSError.

Inductive result (A : Type) : Type :=
| Ok (a : A)
| Raise (e : Exn).
Arguments Ok {A} a.
Arguments Raise {A} e.

(** A computation: its result, or the exception that escaped it, and the
    events up to that point. *)
Definition M (A : Type) : Type := (result A * list Event)%type.

Definition ret {A} (a : A) : M A := (Ok a, []).
Definition raise {A} (e : Exn) : M A := (Raise e, []).
Definition bind {A B} (m : M A) (f : A -> M B) : M B :=
  match m with
  | (Ok a, t) => let (r, t') := f a in (r, t ++ t')
  | (Raise e, t) => (Raise e, t)
  end.

Notation "x <- m ;; k" := (bind m (fun x => k))
  (at level 100, m at next level, right associativity).

(** A [for] loop that threads a state through its body. *)
Fixpoint for_each {A S} (body : S -> A -> M S) (xs : list A) (s : S) : M S :=
  match xs with
  | [] => ret s
  | x :: xs' => s' <- body s x ;; for_each body xs' s'
  end.

Definition value {A} (m : M A) : result A := fst m.
Definition trace {A} (m : M A) : list Event := snd m.


End Effects.

(** ** The audit *)

Module Audit.
Import Text Manifest Effects.

(** One line of a catalog, once through [json.loads].  Every record
    carries an integer '_index'; the image name and the angle may be
    missing. *)
Record record : Type := {
  _index : Z;                       (* '_index' *)
  cam_image_array : option text;    (* 'cam/image_array' *)
  user_angle : option F64.float     (* 'user/angle' *)
}.

Inductive catalog_line : Type :=
| Parsed (r : record)
| Malformed (raw : text).

(** The tub on disk, as far as the tool reads it: [catalog_files] is the
    result of [glob], in the order [glob] returns it; [manifest_file] is
    the bytes of manifest.json, [None] when the file does not exist. *)
Record Tub : Type := {
  root_exists : bool;
  catalog_files : list (list catalog_line);
  manifest_file : option text;
  manifest_writable : bool
}.

(** Lines 116 and 117: the manifest as [f.read()] returns it in text
    mode. *)
Definition manifest (tub : Tub) : option text := read_text <$> manifest_file tub.

(** The image files: which paths exist, which pass [verify], and the mean
    of the grayscale image [cv2] decodes, [None] when [imread] returns
    nothing or the decoding raises. *)
Record World : Type := {
  path_exists : text -> bool;
  verifies : text -> bool;
  gray_mean : text -> option F64.float
}.

Inductive Reason : Type :=
| MissingFile                          (* "文件不存在" *)
| InvalidImage                         (* "图片格式无效" *)
| BrightnessAnomaly (b : F64.float)    (* "亮度异常: {brightness:.1f}" *)
| ZeroAngleRun.                        (* "连续零转向角序列" *)

(** An entry of [problem_images]: index, path, reason. *)
Definition problem : Type := (Z * text * Reason)%type.

Definition problem_index (p : problem) : Z := fst (fst p).
Definition problem_reason (p : problem) : Reason := snd p.

Record Report : Type := {
  deleted_count : nat;
  total_records : nat;
  problem_images : list problem
}.

Inductive Abort : Type := StoreNotFound | CatalogMissing | ManifestMissing.

Inductive Outcome : Type :=
| Aborted (why : Abort)
| Completed (rep : Report).

Section WithWorld.
Variable w : World.

Definition os_path_exists (p : text) : M bool := (Ok (path_exists w p), [EvExists p]).
Definition image_verify (p : text) : M bool := (Ok (verifies w p), [EvVerify p]).
Definition cv2_gray_mean (p : text) : M (option F64.float) :=
  (Ok (gray_mean w p), [EvImread p]).

(** [os.path.join(a, b)] *)
Definition path_join (a b : text) : text :=
  match b with
  | "/"%char :: _ => b
  | _ => match rev a with
         | [] => b
         | "/"%char :: _ => a ++ b
         | _ => a ++ "/"%char :: b
         end
  end.

Definition get_image_path (tub_path img_filename : text) : M (option text) :=
  let img_path := path_join tub_path img_filename in
  e <- os_path_exists img_path ;;
  if e : bool then ret (Some img_path)
  else
    let img_path := path_join (path_join tub_path (lit "images")) img_filename in
    e <- os_path_exists img_path ;;
    if e : bool then ret (Some img_path) else ret None.

Definition is_valid_image (img_path : option text) : M bool :=
  match img_path with
  | None => ret false
  | Some p => image_verify p
  end.

Definition check_brightness (img_path : option text)
    (min_brightness max_brightness : F64.float) : M (bool * F64.float) :=
  match img_path with
  | None => ret (false, F64.zero)
  | Some p =>
      img <- cv2_gray_mean p ;;
      match img with
      | None => ret (false, F64.zero)
      | Some brightness =>
          if F64.ltb brightness min_brightness || F64.gtb brightness max_brightness
          then ret (false, brightness)
          else ret (true, brightness)
      end
  end.

(** [angle is not None and abs(angle) < 0.05] *)
Definition near_zero (r : record) : bool :=
  match user_angle r with
  | Some angle => F64.ltb (F64.abs angle) F64.c0_05
  | None => false
  end.

(** The loop of [get_zero_angle_sequences], from position [index] on. *)
Fixpoint zero_sequences_from (records : list record) (index : nat)
    (current_seq : list nat) (zero_sequences : list (list nat)) : list (list nat) :=
  match records with
  | [] =>
      match current_seq with
      | [] => zero_sequences
      | _ :: _ => zero_sequences ++ [current_seq]
      end
  | r :: records' =>
      if near_zero r then
        zero_sequences_from records' (S index) (current_seq ++ [index]) zero_sequences
      else
        match current_seq with
        | [] => zero_sequences_from records' (S index) [] zero_sequences
        | _ :: _ => zero_sequences_from records' (S index) [] (zero_sequences ++ [current_seq])
        end
  end.

Definition get_zero_angle_sequences (records : list record) : list (list nat) :=
  zero_sequences_from records 0 [] [].

(** The body of the first loop of [clean_tub_data], lines 146 to 175. *)
Definition check_record (tub_path : text) (deleted_indexes : gset Z)
    (min_brightness max_brightness : F64.float)
    (problem_images : list problem) (r : record) : M (list problem) :=
  let index := _index r in
  if decide (index ∈ deleted_indexes) then ret problem_images
  else
    match cam_image_array r with
    | None | Some [] => ret problem_images
    | Some img_filename =>
        img_path <- get_image_path tub_path img_filename ;;
        match img_path with
        | None =>
            ret (problem_images ++ [(index, path_join tub_path img_filename, MissingFile)])
        | Some p =>
            valid <- is_valid_image (Some p) ;;
            if negb valid then ret (problem_images ++ [(index, p, InvalidImage)])
            else
              vb <- check_brightness (Some p) min_brightness max_brightness ;;
              if negb (fst vb)
              then ret (problem_images ++ [(index, p, BrightnessAnomaly (snd vb))])
              else ret problem_images
        end
    end.

(** [abs(angle)] of the records at the given positions, where the angle
    is present.  The bounds of both ranges keep every position below
    [len(all_records)]. *)
Definition window_angles (all_records : list record) (positions : list nat)
    : list F64.float :=
  omap (fun i => match all_records !! i with
                 | Some r => F64.abs <$> user_angle r
                 | None => None
                 end) positions.

(** [range(max(0, first - 5), first)] *)
Definition pre_window (first : nat) : list nat :=
  seq (first - 5) (first - (first - 5)).

(** [range(last + 1, min(len(all_records), last + 6))] *)
Definition post_window (len last : nat) : list nat :=
  seq (last + 1) (Nat.min len (last + 6) - (last + 1)).

Definition pre_avg (all_records : list record) (sequence : list nat) : F64.float :=
  F64.mean_or_zero (window_angles all_records (pre_window (hd 0%nat sequence))).

Definition post_avg (all_records : list record) (sequence : list nat) : F64.float :=
  F64.mean_or_zero
    (window_angles all_records
       (post_window (length all_records) (List.last sequence 0%nat))).

(** [rec_idx in [p[0] for p in problem_images]] *)
Definition already_flagged (rec_idx : Z) (problem_images : list problem) : bool :=
  bool_decide (rec_idx ∈ map problem_index problem_images).

(** The body of the loop of lines 207 to 215. *)
Definition flag_position (tub_path : text) (deleted_indexes : gset Z)
    (all_records : list record)
    (problem_images : list problem) (idx : nat) : M (list problem) :=
  match all_records !! idx with
  | None => raise IndexError
  | Some r =>
      let rec_idx := _index r in
      if bool_decide (rec_idx ∉ deleted_indexes)
         && negb (already_flagged rec_idx problem_images)
      then
        match cam_image_array r with
        | None | Some [] => ret problem_images
        | Some img_filename =>
            img_path <- get_image_path tub_path img_filename ;;
            match img_path with
            | None | Some [] => ret problem_images
            | Some p => ret (problem_images ++ [(rec_idx, p, ZeroAngleRun)])
            end
        end
      else ret problem_images
  end.

(** The body of the loop of lines 179 to 215. *)
Definition check_sequence (tub_path : text) (deleted_indexes : gset Z)
    (max_zero_angle_count : Z) (all_records : list record)
    (problem_images : list problem) (sequence : list nat) : M (list problem) :=
  if max_zero_angle_count <? Z.of_nat (length sequence) then
    if F64.gtb (pre_avg all_records sequence) F64.c0_1
       || F64.gtb (post_avg all_records sequence) F64.c0_1
    then ret problem_images
    else for_each (flag_position tub_path deleted_indexes all_records)
           sequence problem_images
  else ret problem_images.

(** Lines 131 to 139: the lines of one catalog that parse, appended. *)
Definition read_catalog (all_records : list record) (lines : list catalog_line)
    : list record :=
  fold_left (fun acc line => match line with
                             | Parsed r => acc ++ [r]
                             | Malformed _ => acc
                             end) lines all_records.

Definition read_catalogs (files : list (list catalog_line)) : list record :=
  fold_left read_catalog files [].

(** Lines 234 and 235.  On the POSIX systems the tool runs on, text mode
    writes the characters as they are. *)
Definition write_manifest (tub : Tub) (new_content : text) : M unit :=
  if manifest_writable tub then (Ok tt, [EvWriteManifest new_content])
  else raise OSError.

(** Both loops over the records, lines 143 to 215. *)
Definition find_problems (tub_path : text) (deleted_indexes : gset Z)
    (min_brightness max_brightness : F64.float) (max_zero_angle_count : Z)
    (all_records : list record) : M (list problem) :=
  problem_images <-
    for_each (check_record tub_path deleted_indexes min_brightness max_brightness)
      all_records [] ;;
  for_each (check_sequence tub_path deleted_indexes max_zero_angle_count all_records)
    (get_zero_angle_sequences all_records) problem_images.

(** Lines 223 to 235: the indexes of the problems join the deletion index
    and the manifest is patched. *)
Definition commit (tub : Tub) (manifest_content : text) (deleted_indexes : gset Z)
    (problem_images : list problem) : M unit :=
  let new_deleted := map problem_index problem_images in
  write_manifest tub (patch manifest_content (deleted_indexes ∪ list_to_set new_deleted)).

Definition clean_tub_data (tub_path : text) (tub : Tub) (remove : bool)
    (max_brightness min_brightness : F64.float) (max_zero_angle_count : Z)
    : M Outcome :=
  if negb (root_exists tub) then ret (Aborted StoreNotFound)
  else
    match catalog_files tub with
    | [] => ret (Aborted CatalogMissing)
    | _ :: _ =>
        match manifest tub with
        | None => ret (Aborted ManifestMissing)
        | Some manifest_content =>
            match read_deleted manifest_content with
            | None => raise ValueError
            | Some deleted_indexes =>
                let all_records := read_catalogs (catalog_files tub) in
                problem_images <-
                  find_problems tub_path deleted_indexes min_brightness
                    max_brightness max_zero_angle_count all_records ;;
                _ <- match problem_images with
                     | [] => ret tt
                     | _ :: _ =>
                         if remove
                         then commit tub manifest_content deleted_indexes problem_images
                         else ret tt
                     end ;;
                ret (Completed {| deleted_count := size deleted_indexes;
                                  total_records := length all_records;
                                  problem_images := problem_images |})
            end
        end
    end.

(** The arguments as [docopt] hands them over. *)
Record Args : Type := {
  arg_tub : text;
  arg_remove : bool;
  arg_max_brightness : option text;
  arg_min_brightness : option text;
  arg_max_zero_angle_count : option text
}.

(** [int(args.get(name) or default)] *)
Definition int_or (arg : option text) (default : Z) : M Z :=
  match arg with
  | None | Some [] => ret default
  | Some s => match py_int s with
              | Some z => ret z
              | None => raise ValueError
              end
  end.

Definition main (tub : Tub) (args : Args) : M Outcome :=
  max_brightness <- int_or (arg_max_brightness args) 250 ;;
  min_brightness <- int_or (arg_min_brightness args) 20 ;;
  max_zero_angle_count <- int_or (arg_max_zero_angle_count args) 25 ;;
  clean_tub_data (arg_tub args) tub (arg_remove args)
    (F64.of_Z max_brightness) (F64.of_Z min_brightness) max_zero_angle_count.

End WithWorld.

(** The tub after the events of a run: each write replaces the manifest. *)
Definition apply_event (tub : Tub) (e : Event) : Tub :=
  match e with
  | EvWriteManifest content =>
      {| root_exists := root_exists tub;
         catalog_files := catalog_files tub;
         manifest_file := Some content;
         manifest_writable := manifest_writable tub |}
  | _ => tub
  end.

Definition tub_after {A} (tub : Tub) (run : M A) : Tub :=
  fold_left apply_event (trace run) tub.

End Audit.

(** ** Notions used to state the properties *)

Module Views.
Import Text Manifest Effects Audit.

(** The events of the record checks: everything but a write. *)
Definition is_probe (e : Event) : Prop :=
  match e with
  | EvWriteManifest _ => False
  | _ => True
  end.

(** The tub with its manifest overwritten. *)
Definition set_manifest (tub : Tub) (content : text) : Tub :=
  {| root_exists := root_exists tub;
     catalog_files := catalog_files tub;
     manifest_file := Some content;
     manifest_writable := manifest_writable tub |}.

(** A tub the tool can read: root, at least one catalog, a manifest whose
    deletion index parses. *)
Definition readable (tub : Tub) (content : text) (D : gset Z) : Prop :=
  root_exists tub = true /\ catalog_files tub <> [] /\
  manifest tub = Some content /\ read_deleted content = Some D.

(** The cause of the abort of an unusable tub, the root being looked
    at first, then the catalogs, then the manifest. *)
Definition abort_cause (tub : Tub) : Abort :=
  if negb (root_exists tub) then StoreNotFound
  else match catalog_files tub with
       | [] => CatalogMissing
       | _ :: _ => ManifestMissing
       end.

(** The records of one catalog, in the order of its lines. *)
Definition parsed_records (lines : list catalog_line) : list record :=
  omap (fun line => match line with
                    | Parsed r => Some r
                    | Malformed _ => None
                    end) lines.

(** [args.get(name) or default] through [int]; [None] when [int]
    raises. *)
Definition threshold_of (arg : option text) (default : Z) : option Z :=
  match arg with
  | None | Some [] => Some default
  | Some s => py_int s
  end.

(** *** The loops as functions of the problem list *)

Section Values.
Variable w : World.
Variable tub_path : text.

(** The path [get_image_path] returns. *)
Definition resolve (img_filename : text) : option text :=
  if path_exists w (path_join tub_path img_filename)
  then Some (path_join tub_path img_filename)
  else if path_exists w (path_join (path_join tub_path (lit "images")) img_filename)
  then Some (path_join (path_join tub_path (lit "images")) img_filename)
  else None.

(** What the first loop adds for a record that is not deleted. *)
Definition record_verdict (minb maxb : F64.float) (r : record) : list problem :=
  match cam_image_array r with
  | None | Some [] => []
  | Some f =>
      match resolve f with
      | None => [(_index r, path_join tub_path f, MissingFile)]
      | Some p =>
          if verifies w p then
            match gray_mean w p with
            | None => [(_index r, p, BrightnessAnomaly F64.zero)]
            | Some b =>
                if F64.ltb b minb || F64.gtb b maxb
                then [(_index r, p, BrightnessAnomaly b)]
                else []
            end
          else [(_index r, p, InvalidImage)]
      end
  end.

(** The value of one iteration of the first loop. *)
Definition record_step (D : gset Z) (minb maxb : F64.float)
    (probs : list problem) (r : record) : list problem :=
  if decide (_index r ∈ D) then probs else probs ++ record_verdict minb maxb r.

(** What the second loop adds for a record of a flagged run that passes
    the guard of line 210. *)
Definition zero_entry (r : record) : list problem :=
  match cam_image_array r with
  | None | Some [] => []
  | Some f =>
      match resolve f with
      | None | Some [] => []
      | Some p => [(_index r, p, ZeroAngleRun)]
      end
  end.

(** The value of one iteration of the loop of line 207. *)
Definition flag_step (D : gset Z) (recs : list record)
    (probs : list problem) (idx : nat) : list problem :=
  match recs !! idx with
  | None => probs
  | Some r =>
      if bool_decide (_index r ∉ D) && negb (already_flagged (_index r) probs)
      then probs ++ zero_entry r
      else probs
  end.

(** Whether a sequence is flagged: longer than the threshold and with
    both averages at most [0.1]. *)
Definition flagged_run (maxz : Z) (recs : list record) (sequence : list nat) : bool :=
  (maxz <? Z.of_nat (length sequence))
  && negb (F64.gtb (pre_avg recs sequence) F64.c0_1
           || F64.gtb (post_avg recs sequence) F64.c0_1).

(** The value of one iteration of the loop of line 179. *)
Definition sequence_step (D : gset Z) (maxz : Z) (recs : list record)
    (probs : list problem) (sequence : list nat) : list problem :=
  if flagged_run maxz recs sequence
  then fold_left (flag_step D recs) sequence probs
  else probs.

(** The problems of a run, as a function of the deletion index. *)
Definition problems_of (D : gset Z) (minb maxb : F64.float) (maxz : Z)
    (recs : list record) : list problem :=
  fold_left (sequence_step D maxz recs) (get_zero_angle_sequences recs)
    (fold_left (record_step D minb maxb) recs []).

End Values.


(** No entry carries a deleted index. *)
Definition outside_deleted (D : gset Z) (probs : list problem) : Prop :=
  forall p, p ∈ probs -> problem_index p ∉ D.

(** Every entry is one of the first loop or a zero-angle entry. *)
Definition first_or_zero (first probs : list problem) : Prop :=
  forall e, e ∈ probs -> e ∈ first \/ problem_reason e = ZeroAngleRun.

(** *** Characters and lines *)

(** A text without a carriage return: what text mode reads of it is the
    text itself. *)
Definition no_cr (s : text) : Prop :=
  Forall (fun c => Ascii.eqb c carriage_return = false) s.

(** A text within one line. *)
Definition no_newline (l : text) : Prop :=
  Forall (fun c => Ascii.eqb c newline = false) l.

(** The characters [(.*?)] runs over on its way to the bracket. *)
Definition clean (g : text) : Prop :=
  Forall (fun c => Ascii.eqb c rbracket = false /\ Ascii.eqb c newline = false) g.

(** What is true of every character [str] prints for a digit. *)
Definition digit_char (c : ascii) : Prop :=
  is_space c = false /\ Ascii.eqb c "_" = false /\ Ascii.eqb c "-" = false
  /\ Ascii.eqb c "+" = false /\ Ascii.eqb c comma = false
  /\ Ascii.eqb c rbracket = false /\ Ascii.eqb c newline = false
  /\ exists v, digit_val c = Some v.

(** The characters of a printed int: no space, comma, bracket or
    newline. *)
Definition int_char (c : ascii) : Prop :=
  is_space c = false /\ Ascii.eqb c comma = false
  /\ Ascii.eqb c rbracket = false /\ Ascii.eqb c newline = false.

(** The line that decides the deletion index: the first one holding the
    marker. *)
Fixpoint first_field_line (lines : list text) : option text :=
  match lines with
  | [] => None
  | line :: lines' =>
      if contains field_marker line then Some line else first_field_line lines'
  end.

End Views.

(** ** Concrete tubs *)

Module Examples.
Import Text Manifest Effects Audit.

(** [0.01], [0.02] and [0.5] as binary64 numbers. *)
Definition f0_01 : F64.float := S754_finite false 5764607523034235 (-59).
Definition f0_02 : F64.float := S754_finite false 5764607523034235 (-58).
Definition f0_5 : F64.float := S754_finite false 4503599627370496 (-53).

(** Every image exists, verifies and has a mean intensity of 100. *)
Definition bright_world : World :=
  {| path_exists := fun _ => true;
     verifies := fun _ => true;
     gray_mean := fun _ => Some (F64.of_Z 100) |}.

(** Every image exists, verifies and has the mean intensity [b]. *)
Definition world_of_brightness (b : F64.float) : World :=
  {| path_exists := fun _ => true;
     verifies := fun _ => true;
     gray_mean := fun _ => Some b |}.

(** Every image exists and verifies, and none can be decoded by [cv2]. *)
Definition undecodable_world : World :=
  {| path_exists := fun _ => true;
     verifies := fun _ => true;
     gray_mean := fun _ => None |}.


Definition frame (i : Z) (angle : F64.float) : record :=
  {| _index := i;
     cam_image_array := Some (lit "frame.jpg");
     user_angle := Some angle |}.

(** A frame without the 'cam/image_array' key. *)
Definition blind_frame (i : Z) (angle : F64.float) : record :=
  {| _index := i; cam_image_array := None; user_angle := Some angle |}.

(** A manifest line with the field as [json.dumps] writes it. *)
Definition manifest_of (indexes : string) : text :=
  lit "{" ++ dquote :: lit "paths" ++ dquote :: lit ": [], "
  ++ field_marker ++ lit " [" ++ lit indexes ++ lit "]}".

(** The same field without the space after the colon. *)
Definition compact_manifest (indexes : string) : text :=
  lit "{" ++ field_marker ++ lit "[" ++ lit indexes ++ lit "]}".

Definition tub_of (files : list (list record)) (content : text) : Tub :=
  {| root_exists := true;
     catalog_files := map (map Parsed) files;
     manifest_file := Some content;
     manifest_writable := true |}.

Definition straight_run : list record :=
  [frame 0 f0_01; frame 1 f0_02; frame 2 f0_01].

(** A manifest with a second field of the same name nested in another
    one. *)
Definition nested_manifest : text :=
  lit "{" ++ field_marker ++ lit " [1], " ++ dquote :: lit "backup" ++ dquote
  :: lit ": {" ++ field_marker ++ lit " [9]}}".

(** The same run right after a frame steering at 0.5. *)
Definition run_after_turn : list record := frame 9 f0_5 :: straight_run.

Definition tub_path : text := lit "data".

End Examples.

(** ** Notions used to state the further properties *)

Module RunViews.
Import Text Manifest Effects Audit Views.

(** Whether the record at a position is near zero; [false] past the
    end. *)
Definition near_zero_at (records : list record) (i : nat) : bool :=
  match records !! i with
  | Some r => near_zero r
  | None => false
  end.

(** The sequences the loop of [get_zero_angle_sequences] still has to
    append, from position [index] on with [current_seq] open. *)
Fixpoint pending_sequences (records : list record) (index : nat)
    (current_seq : list nat) : list (list nat) :=
  match records with
  | [] => match current_seq with
          | [] => []
          | _ :: _ => [current_seq]
          end
  | r :: records' =>
      if near_zero r then pending_sequences records' (S index) (current_seq ++ [index])
      else match current_seq with
           | [] => pending_sequences records' (S index) []
           | _ :: _ => current_seq :: pending_sequences records' (S index) []
           end
  end.

(** A block of consecutive positions, not preceded and not followed by a
    near-zero record. *)
Definition maximal_block (records : list record) (s : list nat) : Prop :=
  exists a n,
    s = seq a (S n)
    /\ (forall a', a = S a' -> near_zero_at records a' = false)
    /\ near_zero_at records (a + S n) = false.

(** The open sequence is the block of positions that ends right before
    the current one, and no near-zero record precedes it. *)
Definition open_block (pre : list record) (cur : list nat) : Prop :=
  exists a n,
    cur = seq a n /\ (a + n)%nat = length pre
    /\ (forall a', a = S a' -> near_zero_at pre a' = false).

End RunViews.

Module ReportViews.
Import Text Manifest Effects Audit Views.

(** A record with an image name the loops look at. *)
Definition has_image (r : record) : Prop :=
  exists f, cam_image_array r = Some f /\ f <> [].

(** An image that passes every check of the first loop. *)
Definition healthy (w : World) (minb maxb : F64.float) (p : text) : Prop :=
  path_exists w p = true /\ verifies w p = true
  /\ exists b, gray_mean w p = Some b
               /\ F64.ltb b minb || F64.gtb b maxb = false.

(** What may be called on a path, given the world: [verify] on an
    existing file, [imread] on a verified one, and no write. *)
Definition in_order (w : World) (e : Event) : Prop :=
  match e with
  | EvExists _ => True
  | EvVerify p => path_exists w p = true
  | EvImread p => path_exists w p = true /\ verifies w p = true
  | EvWriteManifest _ => False
  end.

(** What the first loop adds for a record. *)
Definition first_entry (w : World) (tub_path : text) (D : gset Z)
    (minb maxb : F64.float) (r : record) : list problem :=
  if decide (_index r ∈ D) then [] else record_verdict w tub_path minb maxb r.

(** An entry of the second loop: it stands for a record that is not
    deleted, has a resolved image and got no entry in the first loop. *)
Definition zero_ok (w : World) (tub_path : text) (D : gset Z)
    (minb maxb : F64.float) (recs : list record) (e : problem) : Prop :=
  exists r f p,
    r ∈ recs /\ e = (_index r, p, ZeroAngleRun)
    /\ cam_image_array r = Some f /\ f <> [] /\ resolve w tub_path f = Some p
    /\ (_index r ∉ D)
    /\ record_verdict w tub_path minb maxb r = [].

(** The shape of the problem list during the second loop: the entries of
    the first loop, then zero-angle entries with indexes that are new and
    pairwise different. *)
Definition second_loop_shape (w : World) (tub_path : text) (D : gset Z)
    (minb maxb : F64.float) (recs : list record) (probs : list problem) : Prop :=
  exists zeros,
    probs = flat_map (first_entry w tub_path D minb maxb) recs ++ zeros
    /\ Forall (zero_ok w tub_path D minb maxb recs) zeros
    /\ NoDup (map problem_index zeros)
    /\ (forall i, i ∈ map problem_index zeros ->
                  i ∉ map problem_index
                        (flat_map (first_entry w tub_path D minb maxb) recs)).

(** The computation returns, and what it returns satisfies [P]. *)
Definition returns {A} (m : M A) (P : A -> Prop) : Prop :=
  match value m with
  | Ok a => P a
  | Raise _ => False
  end.

End ReportViews.

(** ** The servo script (servo.py) *)

Module Servo.

(** The calls to the PCA9685 driver. *)
Inductive PwmCall : Type :=
| SetPwmFreq (hz : Z)
| SetPwm (channel on off : Z).

(** [int(x)] of a float: truncation toward zero; [None] for a NaN
    ([ValueError]) and for an infinity ([OverflowError]). *)
Definition int_of_float (x : F64.float) : option Z :=
  match x with
  | S754_zero _ => Some 0
  | S754_finite s m e =>
      let magnitude := match e with
                       | Zneg p => Z.shiftr (Zpos m) (Zpos p)
                       | _ => Z.shiftl (Zpos m) e
                       end in
      Some (if s then - magnitude else magnitude)
  | S754_infinity _ | S754_nan => None
  end.

(** [a / b] of two ints below [2 ** 53] in magnitude, where both convert
    exactly and the quotient is rounded once. *)
Definition true_div (a b : Z) : F64.float := F64.div (F64.of_Z a) (F64.of_Z b).

(** [int(4096 * ((angle * 11) + 500) / 20000)] for an int [angle] *)
Definition pulse_of (angle : Z) : option Z :=
  int_of_float (true_div (4096 * (angle * 11 + 500)) 20000).

(** [set_servo_angle(channel, angle)]: the call it makes, [None] when
    [int] raises. *)
Definition set_servo_angle (channel angle : Z) : option PwmCall :=
  match pulse_of angle with
  | Some pulse => Some (SetPwm channel 0 pulse)
  | None => None
  end.

(** The script: the frequency, then both servos centred. *)
Definition center_servos : option (list PwmCall) :=
  match set_servo_angle 2 60, set_servo_angle 3 90 with
  | Some steering, Some throttle => Some [SetPwmFreq 60; steering; throttle]
  | _, _ => None
  end.

(** The angles from [lo] on, [n] of them. *)
Definition angles_from (lo : Z) (n : nat) : list Z :=
  map (fun k => lo + Z.of_nat k) (seq 0 n).

End Servo.

(** * Properties *)

(** ** The monad *)

Module EffectsFacts.
Import Text Effects Views.

Lemma value_bind {A B} (m : M A) (f : A -> M B) :
  value (bind m f) = match value m with
                     | Ok a => value (f a)
                     | Raise e => Raise e
                     end.
Proof.
  destruct m as [[a|e] t]; simpl; [|reflexivity].
  destruct (f a); reflexivity.
Qed.

Lemma trace_bind_ok {A B} (m : M A) (f : A -> M B) a :
  value m = Ok a -> trace (bind m f) = trace m ++ trace (f a).
Proof.
  destruct m as [[a'|e] t]; simpl; intros H; [|discriminate].
  injection H as ->. destruct (f a); reflexivity.
Qed.

Lemma trace_bind_raise {A B} (m : M A) (f : A -> M B) e :
  value m = Raise e -> trace (bind m f) = trace m.
Proof.
  destruct m as [[a'|e'] t]; simpl; intros H; [discriminate|reflexivity].
Qed.

(** A property of events that holds along [m] and along every
    continuation holds along their sequence. *)
Lemma trace_bind_Forall {A B} (P : Event -> Prop) (m : M A) (f : A -> M B) :
  Forall P (trace m) ->
  (forall a, value m = Ok a -> Forall P (trace (f a))) ->
  Forall P (trace (bind m f)).
Proof.
  intros Hm Hf. destruct (value m) as [a|e] eqn:Hv.
  - rewrite (trace_bind_ok _ _ _ Hv). apply Forall_app; auto.
  - rewrite (trace_bind_raise _ _ _ Hv). exact Hm.
Qed.

Lemma for_each_trace_Forall {A S} (P : Event -> Prop) (body : S -> A -> M S) xs :
  (forall s x, Forall P (trace (body s x))) ->
  forall s, Forall P (trace (for_each body xs s)).
Proof.
  intros Hb. induction xs as [|x xs IH]; intros s; simpl.
  - constructor.
  - apply trace_bind_Forall; auto.
Qed.

End EffectsFacts.

(** ** What the loops leave on disk *)

Module AuditFacts.
Import Text Manifest Effects EffectsFacts Audit Views.

Lemma tub_after_probes {A} tub (run : M A) :
  Forall is_probe (trace run) -> tub_after tub run = tub.
Proof.
  unfold tub_after. generalize (trace run) as t. intros t Ht.
  induction Ht as [|e t He _ IH]; simpl; [reflexivity|].
  destruct e; simpl in *; try exact IH. contradiction.
Qed.

Section Probes.
Variable w : World.

Lemma get_image_path_probes tub_path f :
  Forall is_probe (trace (get_image_path w tub_path f)).
Proof.
  unfold get_image_path, os_path_exists, bind, ret; simpl.
  repeat (destruct (path_exists w _); simpl); repeat constructor.
Qed.

Lemma check_record_probes tub_path D minb maxb probs r :
  Forall is_probe (trace (check_record w tub_path D minb maxb probs r)).
Proof.
  unfold check_record. destruct (decide _); [constructor|].
  destruct (cam_image_array r) as [[|c f]|]; try constructor.
  apply trace_bind_Forall; [apply get_image_path_probes|].
  intros [p|] _; [|constructor].
  unfold is_valid_image, image_verify, check_brightness, cv2_gray_mean, bind, ret;
    simpl.
  destruct (verifies w p); simpl; [|repeat constructor].
  destruct (gray_mean w p) as [b|]; simpl; [|repeat constructor].
  destruct (_ || _); simpl; repeat constructor.
Qed.

Lemma flag_position_probes tub_path D recs probs idx :
  Forall is_probe (trace (flag_position w tub_path D recs probs idx)).
Proof.
  unfold flag_position. destruct (recs !! idx) as [r|]; [|constructor].
  destruct (_ && _); [|constructor].
  destruct (cam_image_array r) as [[|c f]|]; try constructor.
  apply trace_bind_Forall; [apply get_image_path_probes|].
  intros [[|c' p]|] _; constructor.
Qed.

Lemma check_sequence_probes tub_path D maxz recs probs sequence :
  Forall is_probe (trace (check_sequence w tub_path D maxz recs probs sequence)).
Proof.
  unfold check_sequence. destruct (_ <? _); [|constructor].
  destruct (_ || _); [constructor|].
  apply for_each_trace_Forall. intros. apply flag_position_probes.
Qed.

Lemma find_problems_probes tub_path D minb maxb maxz recs :
  Forall is_probe (trace (find_problems w tub_path D minb maxb maxz recs)).
Proof.
  unfold find_problems. apply trace_bind_Forall.
  - apply for_each_trace_Forall. intros. apply check_record_probes.
  - intros probs _. apply for_each_trace_Forall. intros.
    apply check_sequence_probes.
Qed.

End Probes.

(** The positions of the zero-angle sequences are positions of records. *)
Lemma zero_sequences_from_bound rs : forall index cur acc,
  Forall (fun i => (i < index)%nat) cur ->
  Forall (Forall (fun i => (i < index + length rs)%nat)) acc ->
  Forall (Forall (fun i => (i < index + length rs)%nat))
    (zero_sequences_from rs index cur acc).
Proof.
  induction rs as [|r rs IH]; intros index cur acc Hcur Hacc; simpl.
  - assert (Hcur' : Forall (fun i => (i < index + 0)%nat) cur)
      by (eapply Forall_impl; [exact Hcur|simpl; intros; lia]).
    destruct cur; [exact Hacc|].
    apply Forall_app; split; [exact Hacc|]. constructor; [exact Hcur'|constructor].
  - replace (index + S (length rs))%nat with (S index + length rs)%nat by lia.
    assert (Hacc' : Forall (Forall (fun i => (i < S index + length rs)%nat)) acc).
    { eapply Forall_impl; [exact Hacc|]. intros l Hl.
      eapply Forall_impl; [exact Hl|]. simpl; intros; lia. }
    assert (Hcur' : Forall (fun i => (i < S index + length rs)%nat) cur).
    { eapply Forall_impl; [exact Hcur|]. simpl; intros; lia. }
    destruct (near_zero r).
    + apply IH; [|exact Hacc'].
      apply Forall_app; split.
      * eapply Forall_impl; [exact Hcur|]. simpl; intros; lia.
      * repeat constructor.
    + destruct cur as [|c cur].
      * apply IH; [constructor|exact Hacc'].
      * apply IH; [constructor|].
        apply Forall_app; split; [exact Hacc'|].
        constructor; [exact Hcur'|constructor].
Qed.

Lemma get_zero_angle_sequences_bound rs :
  Forall (Forall (fun i => (i < length rs)%nat)) (get_zero_angle_sequences rs).
Proof.
  unfold get_zero_angle_sequences.
  apply (zero_sequences_from_bound rs 0 [] []); constructor.
Qed.

End AuditFacts.

(** ** The values the loops compute *)

Module AuditValues.
Import Text Manifest Effects EffectsFacts Audit AuditFacts Views.

Lemma for_each_value {A S} (body : S -> A -> M S) (step : S -> A -> S) xs :
  (forall s x, x ∈ xs -> value (body s x) = Ok (step s x)) ->
  forall s, value (for_each body xs s) = Ok (fold_left step xs s).
Proof.
  induction xs as [|x xs IH]; intros Hb s; simpl; [reflexivity|].
  rewrite value_bind, Hb by left.
  apply IH. intros ? ? Hin. apply Hb. now right.
Qed.

Section Values.
Variable w : World.
Variable tub_path : text.

Lemma get_image_path_value f :
  value (get_image_path w tub_path f) = Ok (resolve w tub_path f).
Proof.
  unfold get_image_path, resolve, os_path_exists, bind, ret; simpl.
  repeat (destruct (path_exists w _); simpl); reflexivity.
Qed.

Lemma check_record_value D minb maxb probs r :
  value (check_record w tub_path D minb maxb probs r)
  = Ok (record_step w tub_path D minb maxb probs r).
Proof.
  unfold check_record, record_step, record_verdict.
  destruct (decide _); [reflexivity|].
  destruct (cam_image_array r) as [[|c f]|]; simpl;
    try (now rewrite app_nil_r).
  rewrite value_bind, get_image_path_value.
  destruct (resolve w tub_path (c :: f)) as [p|]; [|reflexivity].
  unfold is_valid_image, image_verify, check_brightness, cv2_gray_mean, bind, ret;
    simpl.
  destruct (verifies w p); simpl; [|reflexivity].
  destruct (gray_mean w p) as [b|]; simpl; [|reflexivity].
  destruct (_ || _); simpl; [reflexivity|now rewrite app_nil_r].
Qed.

Lemma flag_position_value D recs probs idx :
  (idx < length recs)%nat ->
  value (flag_position w tub_path D recs probs idx)
  = Ok (flag_step w tub_path D recs probs idx).
Proof.
  intros Hlt. unfold flag_position, flag_step, zero_entry.
  destruct (lookup_lt_is_Some_2 recs idx Hlt) as [r ->].
  destruct (_ && _); [|reflexivity].
  destruct (cam_image_array r) as [[|c f]|]; simpl;
    try (now rewrite app_nil_r).
  rewrite value_bind, get_image_path_value.
  destruct (resolve w tub_path (c :: f)) as [[|c' p]|]; simpl;
    try (now rewrite app_nil_r); reflexivity.
Qed.

Lemma check_sequence_value D maxz recs probs sequence :
  Forall (fun idx => (idx < length recs)%nat) sequence ->
  value (check_sequence w tub_path D maxz recs probs sequence)
  = Ok (sequence_step w tub_path D maxz recs probs sequence).
Proof.
  intros Hs. unfold check_sequence, sequence_step, flagged_run.
  destruct (_ <? _); [|reflexivity].
  destruct (_ || _); [reflexivity|]. simpl.
  apply for_each_value. intros s x Hx.
  apply flag_position_value. rewrite Forall_forall in Hs. now apply Hs.
Qed.

Lemma find_problems_value D minb maxb maxz recs :
  value (find_problems w tub_path D minb maxb maxz recs)
  = Ok (problems_of w tub_path D minb maxb maxz recs).
Proof.
  unfold find_problems, problems_of. rewrite value_bind.
  rewrite (for_each_value _ (record_step w tub_path D minb maxb))
    by (intros; apply check_record_value).
  apply for_each_value. intros s x Hx.
  apply check_sequence_value.
  pose proof (get_zero_angle_sequences_bound recs) as Hb.
  rewrite Forall_forall in Hb. now apply Hb.
Qed.

End Values.

End AuditValues.

(** ** A run of [clean_tub_data] *)

Module RunFacts.
Import Text Manifest Effects EffectsFacts Audit AuditFacts AuditValues Views.

Section Run.
Variables (w : World) (tub_path : text) (tub : Tub) (remove : bool).
Variables (maxb minb : F64.float) (maxz : Z).

Let run := clean_tub_data w tub_path tub remove maxb minb maxz.

Lemma clean_tub_data_readable content D :
  readable tub content D ->
  let recs := read_catalogs (catalog_files tub) in
  let probs := problems_of w tub_path D minb maxb maxz recs in
  let probes := trace (find_problems w tub_path D minb maxb maxz recs) in
  let rep := {| deleted_count := size D;
                total_records := length recs;
                problem_images := probs |} in
  let new_content := patch content (D ∪ list_to_set (map problem_index probs)) in
  run = match probs with
        | [] => (Ok (Completed rep), probes)
        | _ :: _ =>
            if remove then
              if manifest_writable tub
              then (Ok (Completed rep), probes ++ [EvWriteManifest new_content])
              else (Raise OSError, probes)
            else (Ok (Completed rep), probes)
        end.
Proof.
  intros (Hroot & Hcat & Hman & Hread) recs probs probes rep new_content.
  pose proof (find_problems_value w tub_path D minb maxb maxz recs) as Hv.
  fold probs in Hv. subst probes.
  assert (Hrun : run = bind (find_problems w tub_path D minb maxb maxz recs)
    (fun problem_images =>
       bind (match problem_images with
             | [] => ret tt
             | _ :: _ => if remove
                         then commit tub content D problem_images
                         else ret tt
             end)
         (fun _ => ret (Completed {| deleted_count := size D;
                                     total_records := length recs;
                                     problem_images := problem_images |})))).
  { unfold run, clean_tub_data. rewrite Hroot. simpl.
    destruct (catalog_files tub) eqn:Hc; [contradiction|].
    rewrite Hman, Hread. reflexivity. }
  destruct (find_problems w tub_path D minb maxb maxz recs) as [v t] eqn:Hf.
  simpl in Hv. subst v. rewrite Hrun. subst rep new_content.
  destruct probs as [|p probs']; simpl.
  - now rewrite ?app_nil_r.
  - destruct remove; simpl.
    + unfold commit, write_manifest. destruct (manifest_writable tub); simpl.
      * now rewrite ?app_nil_r.
      * now rewrite ?app_nil_r.
    + now rewrite ?app_nil_r.
Qed.

(** The tub a run on a readable tub leaves behind. *)
Lemma tub_after_readable content D :
  readable tub content D ->
  let probs := problems_of w tub_path D minb maxb maxz
                 (read_catalogs (catalog_files tub)) in
  tub_after tub run
  = match probs with
    | [] => tub
    | _ :: _ =>
        if remove && manifest_writable tub
        then set_manifest tub
               (patch content (D ∪ list_to_set (map problem_index probs)))
        else tub
    end.
Proof.
  intros Hr probs. rewrite (clean_tub_data_readable content D Hr).
  fold probs.
  pose proof (find_problems_probes w tub_path D minb maxb maxz
                (read_catalogs (catalog_files tub))) as Hp.
  set (t := trace _) in *.
  assert (Ht : fold_left apply_event t tub = tub)
    by (apply (tub_after_probes tub (Ok tt, t)); exact Hp).
  unfold tub_after.
  destruct probs; [exact Ht|].
  destruct remove; simpl; [|exact Ht].
  destruct (manifest_writable tub); simpl; [|exact Ht].
  now rewrite fold_left_app, Ht.
Qed.

(** A completed run comes from a readable tub. *)
Lemma completed_readable rep :
  value run = Ok (Completed rep) ->
  exists content D, readable tub content D.
Proof.
  unfold run, clean_tub_data, readable.
  destruct (root_exists tub); simpl; [|discriminate].
  destruct (catalog_files tub); [discriminate|].
  destruct (manifest tub) as [c|]; [|discriminate].
  destruct (read_deleted c) as [D|] eqn:Hr; [|discriminate].
  intros _. exists c, D. repeat split; congruence.
Qed.

(** The report of a completed run. *)
Lemma completed_report rep :
  value run = Ok (Completed rep) ->
  exists content D,
    readable tub content D /\
    rep = {| deleted_count := size D;
             total_records := length (read_catalogs (catalog_files tub));
             problem_images := problems_of w tub_path D minb maxb maxz
                                 (read_catalogs (catalog_files tub)) |}.
Proof.
  intros Hv. destruct (completed_readable rep Hv) as (c & D & Hr).
  exists c, D. split; [exact Hr|].
  pose proof (clean_tub_data_readable c D Hr) as Hrun. simpl in Hrun.
  rewrite Hrun in Hv.
  destruct (problems_of _ _ _ _ _ _ _) eqn:Hp.
  - simpl in Hv. now injection Hv as <-.
  - destruct remove; [destruct (manifest_writable tub)|]; simpl in Hv;
      try discriminate; now injection Hv as <-.
Qed.

(** A tub the tool cannot read is left as it is, and nothing is probed. *)
Lemma clean_tub_data_unreadable :
  (forall content D, ~ readable tub content D) ->
  trace run = [] /\
  (value run = Raise ValueError \/ exists why, value run = Ok (Aborted why)).
Proof.
  unfold run, clean_tub_data, readable. intros Hn.
  destruct (root_exists tub); simpl; [|eauto].
  destruct (catalog_files tub) eqn:Hc; [simpl; eauto|].
  destruct (manifest tub) as [c|]; [|simpl; eauto].
  destruct (read_deleted c) as [D|] eqn:Hr; [|simpl; eauto].
  exfalso. apply (Hn c D). repeat split; congruence.
Qed.

End Run.

End RunFacts.

(** ** Deleted records are never flagged *)

Module DeletedFacts.
Import Text Manifest Effects EffectsFacts Audit AuditFacts AuditValues Views.

Lemma fold_left_invariant {A S} (P : S -> Prop) (step : S -> A -> S) xs :
  (forall s x, x ∈ xs -> P s -> P (step s x)) ->
  forall s, P s -> P (fold_left step xs s).
Proof.
  induction xs as [|x xs IH]; intros Hstep s Hs; simpl; [exact Hs|].
  apply IH.
  - intros ? ? Hin. apply Hstep. now right.
  - apply Hstep; [left|exact Hs].
Qed.

Section Deleted.
Variables (w : World) (tub_path : text) (D : gset Z).

Lemma record_verdict_index minb maxb r p :
  p ∈ record_verdict w tub_path minb maxb r -> problem_index p = _index r.
Proof.
  unfold record_verdict.
  destruct (cam_image_array r) as [[|c f]|]; try (now intros ?%elem_of_nil).
  destruct (resolve w tub_path (c :: f)) as [q|].
  - destruct (verifies w q).
    + destruct (gray_mean w q) as [b|].
      * destruct (_ || _); [|now intros ?%elem_of_nil].
        now intros ->%list_elem_of_singleton.
      * now intros ->%list_elem_of_singleton.
    + now intros ->%list_elem_of_singleton.
  - now intros ->%list_elem_of_singleton.
Qed.

Lemma zero_entry_index r p :
  p ∈ zero_entry w tub_path r -> problem_index p = _index r.
Proof.
  unfold zero_entry.
  destruct (cam_image_array r) as [[|c f]|]; try (now intros ?%elem_of_nil).
  destruct (resolve w tub_path (c :: f)) as [[|c' q]|];
    try (now intros ?%elem_of_nil).
  now intros ->%list_elem_of_singleton.
Qed.

Lemma record_step_outside minb maxb probs r :
  outside_deleted D probs -> outside_deleted D (record_step w tub_path D minb maxb probs r).
Proof.
  unfold record_step, outside_deleted. intros Hp p.
  destruct (decide _) as [|Hn]; [apply Hp|].
  rewrite elem_of_app. intros [?|Hin]; [now apply Hp|].
  now rewrite (record_verdict_index _ _ _ _ Hin).
Qed.

Lemma flag_step_outside recs probs idx :
  outside_deleted D probs -> outside_deleted D (flag_step w tub_path D recs probs idx).
Proof.
  unfold flag_step, outside_deleted. intros Hp p.
  destruct (recs !! idx) as [r|]; [|apply Hp].
  destruct (bool_decide _) eqn:Hd; simpl; [|apply Hp].
  destruct (negb _); [|apply Hp].
  apply bool_decide_eq_true in Hd.
  rewrite elem_of_app. intros [?|Hin]; [now apply Hp|].
  now rewrite (zero_entry_index _ _ Hin).
Qed.

Lemma sequence_step_outside maxz recs probs sequence :
  outside_deleted D probs ->
  outside_deleted D (sequence_step w tub_path D maxz recs probs sequence).
Proof.
  unfold sequence_step. intros Hp. destruct (flagged_run _ _ _); [|exact Hp].
  apply fold_left_invariant; [|exact Hp].
  intros. now apply flag_step_outside.
Qed.

Lemma problems_of_outside minb maxb maxz recs :
  outside_deleted D (problems_of w tub_path D minb maxb maxz recs).
Proof.
  unfold problems_of.
  apply fold_left_invariant.
  { intros. now apply sequence_step_outside. }
  apply fold_left_invariant.
  { intros. now apply record_step_outside. }
  intros p Hp. now apply elem_of_nil in Hp.
Qed.

End Deleted.

End DeletedFacts.

(** ** Comparisons of binary64 numbers *)

Module F64Facts.

Lemma compare_antisym (x y : F64.float) :
  SFcompare y x = option_map CompOpp (SFcompare x y).
Proof.
  destruct x as [sx|sx| |sx mx ex], y as [sy|sy| |sy my ey]; simpl;
    try reflexivity;
    try (destruct sx; reflexivity); try (destruct sy; reflexivity);
    try (destruct sx, sy; reflexivity).
  pose proof (Pos.compare_cont_antisym mx my Eq) as Hm. simpl in Hm.
  destruct sx, sy; try reflexivity.
  - rewrite (Z.compare_antisym ex ey).
    destruct (ex ?= ey); simpl; try reflexivity.
    now rewrite <- Hm, CompOpp_involutive.
  - rewrite (Z.compare_antisym ex ey).
    destruct (ex ?= ey); simpl; try reflexivity.
    now rewrite Hm.
Qed.

Lemma ltb_irrefl (x : F64.float) : F64.ltb x x = false.
Proof.
  unfold F64.ltb, SFltb. pose proof (compare_antisym x x) as H.
  destruct (SFcompare x x) as [[| |]|]; simpl in H; try reflexivity.
  discriminate.
Qed.

(** [x <= y] rules out [x > y]. *)
Lemma leb_not_gtb (x y : F64.float) : F64.leb x y = true -> F64.gtb x y = false.
Proof.
  unfold F64.leb, F64.gtb, SFleb, SFltb. rewrite (compare_antisym x y).
  destruct (SFcompare x y) as [[| |]|]; simpl; congruence.
Qed.

End F64Facts.

(** ** Reading the catalogs *)

Module CatalogFacts.
Import Text Audit Views.

Lemma read_catalog_app acc lines :
  read_catalog acc lines = acc ++ parsed_records lines.
Proof.
  unfold read_catalog. revert acc.
  induction lines as [|[r|raw] lines IH]; intros acc; simpl.
  - now rewrite app_nil_r.
  - rewrite IH. now rewrite <- app_assoc.
  - apply IH.
Qed.

Lemma read_catalogs_from acc files :
  fold_left read_catalog files acc = acc ++ concat (map parsed_records files).
Proof.
  revert acc. induction files as [|f files IH]; intros acc; simpl.
  - now rewrite app_nil_r.
  - rewrite IH, read_catalog_app. now rewrite <- app_assoc.
Qed.

End CatalogFacts.

(** ** The exit status *)

Module MainFacts.
Import Text Manifest Effects EffectsFacts Audit AuditFacts AuditValues RunFacts Views.

Lemma int_or_threshold arg default :
  int_or arg default = match threshold_of arg default with
                       | Some z => ret z
                       | None => raise ValueError
                       end.
Proof.
  unfold int_or, threshold_of. destruct arg as [[|c s]|]; try reflexivity.
Qed.


End MainFacts.

(** ** Flagging the positions of a run *)

Module SequenceFacts.
Import Text Manifest Effects EffectsFacts Audit AuditFacts AuditValues DeletedFacts Views.

Lemma path_join_nonempty a b : b <> [] -> path_join a b <> [].
Proof.
  intros Hb. unfold path_join.
  destruct b as [|c b]; [contradiction|].
  destruct (Ascii.ascii_dec c "/") as [->|Hc]; [discriminate|].
  assert (Hgoal : match rev a with
                  | [] => c :: b
                  | "/"%char :: _ => a ++ c :: b
                  | _ => a ++ "/"%char :: c :: b
                  end <> []).
  { destruct (rev a) as [|x l]; [discriminate|].
    assert (a ++ c :: b <> []) by (destruct a; discriminate).
    assert (a ++ "/"%char :: c :: b <> []) by (destruct a; discriminate).
    destruct x as [[] [] [] [] [] [] [] []]; assumption. }
  destruct c as [[] [] [] [] [] [] [] []]; try exact Hgoal.
  contradiction Hc. reflexivity.
Qed.

Section Flagging.
Variables (w : World) (tub_path : text) (D : gset Z).

Lemma resolve_nonempty f p : f <> [] -> resolve w tub_path f = Some p -> p <> [].
Proof.
  unfold resolve. intros Hf.
  destruct (path_exists w _).
  - intros [= <-]. now apply path_join_nonempty.
  - destruct (path_exists w _); [|discriminate].
    intros [= <-]. now apply path_join_nonempty.
Qed.

(** The problem lists only grow. *)
Lemma record_step_grows minb maxb probs r e :
  e ∈ probs -> e ∈ record_step w tub_path D minb maxb probs r.
Proof.
  unfold record_step. destruct (decide _); [easy|].
  intros. apply elem_of_app. now left.
Qed.

Lemma flag_step_grows recs probs idx e :
  e ∈ probs -> e ∈ flag_step w tub_path D recs probs idx.
Proof.
  unfold flag_step. destruct (recs !! idx); [|easy].
  destruct (_ && _); [|easy]. intros. apply elem_of_app. now left.
Qed.

Lemma sequence_step_grows maxz recs probs sequence e :
  e ∈ probs -> e ∈ sequence_step w tub_path D maxz recs probs sequence.
Proof.
  unfold sequence_step. destruct (flagged_run _ _ _); [|easy].
  apply (fold_left_invariant (fun l => e ∈ l)).
  intros. now apply flag_step_grows.
Qed.

(** What the first loop adds for a record stays in its result. *)
Lemma first_pass_keeps minb maxb recs r e :
  r ∈ recs -> _index r ∉ D ->
  e ∈ record_verdict w tub_path minb maxb r ->
  forall acc, e ∈ fold_left (record_step w tub_path D minb maxb) recs acc.
Proof.
  intros Hr HD He. induction recs as [|x recs IH]; intros acc.
  - now apply elem_of_nil in Hr.
  - simpl. apply elem_of_cons in Hr as [<-|Hr]; [|now apply IH].
    apply (fold_left_invariant (fun l => e ∈ l)).
    + intros. now apply record_step_grows.
    + unfold record_step. destruct (decide _); [contradiction|].
      apply elem_of_app. now right.
Qed.

Lemma zero_entry_reason r e :
  e ∈ zero_entry w tub_path r -> problem_reason e = ZeroAngleRun.
Proof.
  unfold zero_entry.
  destruct (cam_image_array r) as [[|c f]|]; try (now intros ?%elem_of_nil).
  destruct (resolve w tub_path (c :: f)) as [[|c' q]|];
    try (now intros ?%elem_of_nil).
  now intros ->%list_elem_of_singleton.
Qed.

Lemma flag_step_first_or_zero first recs probs idx :
  first_or_zero first probs ->
  first_or_zero first (flag_step w tub_path D recs probs idx).
Proof.
  unfold flag_step, first_or_zero. intros Hp e.
  destruct (recs !! idx) as [r|]; [|apply Hp].
  destruct (_ && _); [|apply Hp].
  rewrite elem_of_app. intros [?|Hin]; [now apply Hp|].
  right. now apply (zero_entry_reason r).
Qed.

Lemma sequence_step_first_or_zero first maxz recs probs sequence :
  first_or_zero first probs ->
  first_or_zero first (sequence_step w tub_path D maxz recs probs sequence).
Proof.
  unfold sequence_step. intros Hp. destruct (flagged_run _ _ _); [|exact Hp].
  apply fold_left_invariant; [|exact Hp].
  intros. now apply flag_step_first_or_zero.
Qed.

(** Once the position of a record with a resolved image has been
    processed, the index of the record is flagged as a zero-angle run,
    unless the first loop had flagged it. *)
Lemma flag_step_flags first recs probs idx r f p :
  first_or_zero first probs ->
  recs !! idx = Some r ->
  _index r ∉ D ->
  _index r ∉ map problem_index first ->
  cam_image_array r = Some f -> f <> [] ->
  resolve w tub_path f = Some p ->
  exists q, (_index r, q, ZeroAngleRun) ∈ flag_step w tub_path D recs probs idx.
Proof.
  intros HI Hl HD Hfirst Hf Hne Hp. unfold flag_step. rewrite Hl.
  rewrite (bool_decide_eq_true_2 _ HD). simpl.
  unfold already_flagged. destruct (bool_decide _) eqn:Hflag; simpl.
  - apply bool_decide_eq_true in Hflag.
    apply list_elem_of_fmap in Hflag as ([[i q] reason] & Hi & He).
    unfold problem_index in Hi. simpl in Hi. subst i.
    destruct (HI _ He) as [Hin|Hz].
    + exfalso. apply Hfirst. apply list_elem_of_fmap.
      exists (_index r, q, reason). now split.
    + unfold problem_reason in Hz. simpl in Hz. subst reason. now exists q.
  - exists p. apply elem_of_app. right. unfold zero_entry. rewrite Hf.
    destruct f as [|c f]; [contradiction|]. rewrite Hp.
    pose proof (resolve_nonempty _ _ Hne Hp) as Hq.
    destruct p; [contradiction|]. apply list_elem_of_singleton. reflexivity.
Qed.

Lemma fold_flag_step_flags first recs sequence idx r f p :
  idx ∈ sequence ->
  recs !! idx = Some r ->
  _index r ∉ D ->
  _index r ∉ map problem_index first ->
  cam_image_array r = Some f -> f <> [] ->
  resolve w tub_path f = Some p ->
  forall probs, first_or_zero first probs ->
  exists q, (_index r, q, ZeroAngleRun)
            ∈ fold_left (flag_step w tub_path D recs) sequence probs.
Proof.
  intros Hin Hl HD Hfirst Hf Hne Hp.
  induction sequence as [|x sequence IH]; intros probs HI.
  - now apply elem_of_nil in Hin.
  - simpl. apply elem_of_cons in Hin as [<-|Hin].
    + destruct (flag_step_flags first recs probs idx r f p) as [q Hq]; auto.
      exists q. apply (fold_left_invariant (fun l => _ ∈ l)); [|exact Hq].
      intros. now apply flag_step_grows.
    + apply IH; [exact Hin|]. now apply flag_step_first_or_zero.
Qed.

End Flagging.

End SequenceFacts.

(** ** Prefixes and substrings *)

Module TextFacts.
Import Text Views.

Lemma strip_prefix_Some p s r : strip_prefix p s = Some r <-> s = p ++ r.
Proof.
  revert s. induction p as [|a p IH]; intros s; simpl.
  - split; [now intros [= ->]|now intros ->].
  - destruct s as [|b s]; [split; discriminate|].
    destruct (Ascii.eqb_spec a b) as [->|Hne].
    + rewrite IH. split; [now intros ->|now intros [= ->]].
    + split; [discriminate|]. intros [= -> _]. contradiction.
Qed.

Lemma strip_prefix_app p r : strip_prefix p (p ++ r) = Some r.
Proof. now apply strip_prefix_Some. Qed.

(** A prefix no longer than [a] is decided within [a]. *)
Lemma strip_prefix_within p a y t :
  (length p <= length a)%nat ->
  strip_prefix p (a ++ y) = Some t ->
  exists u, a = p ++ u /\ t = u ++ y.
Proof.
  intros Hlen H. apply strip_prefix_Some in H.
  exists (drop (length p) a).
  assert (Ha : a = p ++ drop (length p) a).
  { rewrite <- (take_drop (length p) a) at 1. f_equal.
    apply (f_equal (take (length p))) in H.
    rewrite take_app_le in H by exact Hlen.
    rewrite take_app_length in H. exact H. }
  split; [exact Ha|].
  rewrite Ha in H at 1. rewrite <- app_assoc in H.
  now apply app_inv_head in H.
Qed.

Lemma contains_unfold p s :
  contains p s = match strip_prefix p s with
                 | Some _ => true
                 | None => match s with
                           | [] => false
                           | _ :: s' => contains p s'
                           end
                 end.
Proof. destruct s; reflexivity. Qed.

Lemma contains_app p a b : contains p (a ++ p ++ b) = true.
Proof.
  induction a as [|c a IH]; rewrite contains_unfold.
  - simpl. now rewrite strip_prefix_app.
  - simpl. destruct (strip_prefix p (c :: a ++ p ++ b)); [reflexivity|exact IH].
Qed.

End TextFacts.

(** ** The pattern of the field *)

Module RegexFacts.
Import Text Manifest TextFacts Views.

Lemma field_open_no_newline : no_newline field_open.
Proof. repeat constructor. Qed.

Lemma field_open_marker : field_open = field_marker ++ lit " [".
Proof. reflexivity. Qed.

Local Opaque field_open field_marker.

Lemma lazy_to_bracket_Some s g rest :
  lazy_to_bracket s = Some (g, rest) -> s = g ++ rbracket :: rest /\ clean g.
Proof.
  revert g. induction s as [|c s IH]; intros g; simpl; [discriminate|].
  destruct (Ascii.eqb_spec c rbracket) as [->|Hb].
  - intros [= <- <-]. split; [reflexivity|constructor].
  - destruct (Ascii.eqb c newline) eqn:Hn; [discriminate|].
    destruct (lazy_to_bracket s) as [[g' r']|]; [|discriminate].
    intros [= <- <-]. destruct (IH g' eq_refl) as [-> Hc].
    split; [reflexivity|]. constructor; [|exact Hc].
    split; [now apply Ascii.eqb_neq|exact Hn].
Qed.

Lemma lazy_to_bracket_clean u x :
  clean u ->
  lazy_to_bracket (u ++ x) = match lazy_to_bracket x with
                             | Some (g, r) => Some (u ++ g, r)
                             | None => None
                             end.
Proof.
  induction 1 as [|c u [Hb Hn] _ IH]; simpl.
  - destruct (lazy_to_bracket x) as [[g r]|]; reflexivity.
  - rewrite Hb, Hn, IH. destruct (lazy_to_bracket x) as [[g r]|]; reflexivity.
Qed.

Lemma lazy_to_bracket_group g rest :
  clean g -> lazy_to_bracket (g ++ rbracket :: rest) = Some (g, rest).
Proof.
  intros Hg. rewrite (lazy_to_bracket_clean g _ Hg). simpl.
  now rewrite app_nil_r.
Qed.

(** Scanning [u]: the bracket is found within [u], or [u] is run over
    entirely, or a newline within [u] stops the scan. *)
Lemma lazy_to_bracket_cases u :
  (exists g r, forall x, lazy_to_bracket (u ++ x) = Some (g, r ++ x))
  \/ clean u
  \/ (forall x, lazy_to_bracket (u ++ x) = None).
Proof.
  induction u as [|c u IH].
  - right; left. constructor.
  - simpl. destruct (Ascii.eqb c rbracket) eqn:Hb.
    + left. exists [], u. reflexivity.
    + destruct (Ascii.eqb c newline) eqn:Hn.
      * right; right. reflexivity.
      * destruct IH as [(g & r & H)|[H|H]].
        -- left. exists (c :: g), r. intros x. now rewrite H.
        -- right; left. now constructor.
        -- right; right. intros x. now rewrite H.
Qed.

Lemma match_here_Some s g rest :
  match_here s = Some (g, rest) <->
  s = field_open ++ g ++ rbracket :: rest /\ clean g.
Proof.
  unfold match_here. split.
  - destruct (strip_prefix field_open s) as [t|] eqn:Hp; [|discriminate].
    apply strip_prefix_Some in Hp. intros [-> Hc]%lazy_to_bracket_Some.
    now split.
  - intros [-> Hc]. rewrite strip_prefix_app. now apply lazy_to_bracket_group.
Qed.

(** A failed match before a field stays a failed match when the group
    and what follows the field change. *)
Lemma match_here_stable a g rest g' rest' :
  clean g ->
  match_here (a ++ field_open ++ g ++ rbracket :: rest) = None ->
  match_here (a ++ field_open ++ g' ++ rbracket :: rest') = None.
Proof.
  intros Hg. unfold match_here. rewrite !(app_assoc a field_open).
  destruct (strip_prefix field_open ((a ++ field_open) ++ g' ++ _))
    as [t|] eqn:Hp; [|reflexivity].
  apply strip_prefix_within in Hp as (u & Hu & ->);
    [|rewrite length_app; lia].
  rewrite Hu, <- !app_assoc, strip_prefix_app.
  destruct (lazy_to_bracket_cases u) as [(g0 & r0 & H)|[H|H]].
  - now rewrite H.
  - rewrite (lazy_to_bracket_clean u _ H), lazy_to_bracket_group by exact Hg.
    discriminate.
  - intros _. apply H.
Qed.

Lemma re_search_unfold s :
  re_search s = match match_here s with
                | Some (g, rest) => Some ([], g, rest)
                | None =>
                    match s with
                    | [] => None
                    | c :: s' =>
                        match re_search s' with
                        | Some (pre, g, rest) => Some (c :: pre, g, rest)
                        | None => None
                        end
                    end
                end.
Proof. destruct s; reflexivity. Qed.

Lemma re_search_Some s pre g rest :
  re_search s = Some (pre, g, rest) ->
  s = pre ++ field_open ++ g ++ rbracket :: rest /\ clean g.
Proof.
  revert pre. induction s as [|c s IH]; intros pre; rewrite re_search_unfold.
  - destruct (match_here []) as [[g' r']|] eqn:Hm; [|discriminate].
    intros [= <- <- <-]. now apply match_here_Some in Hm.
  - destruct (match_here (c :: s)) as [[g' r']|] eqn:Hm.
    + intros [= <- <- <-]. now apply match_here_Some in Hm.
    + destruct (re_search s) as [[[p' g'] r']|]; [|discriminate].
      intros [= <- <- <-]. destruct (IH p' eq_refl) as [-> Hc]. now split.
Qed.

Lemma re_search_length s pre g rest :
  re_search s = Some (pre, g, rest) -> (length rest < length s)%nat.
Proof.
  intros [-> _]%re_search_Some. rewrite !length_app. simpl. lia.
Qed.

(** The leftmost match stays the leftmost match when its group and what
    follows it are replaced. *)
Lemma re_search_stable s pre g rest g' rest' :
  re_search s = Some (pre, g, rest) ->
  clean g' ->
  re_search (pre ++ field_open ++ g' ++ rbracket :: rest') = Some (pre, g', rest').
Proof.
  intros Hs Hg'. revert s Hs. induction pre as [|c pre IH]; intros s Hs.
  - rewrite re_search_unfold. simpl.
    now rewrite (proj2 (match_here_Some _ g' rest') (conj eq_refl Hg')).
  - pose proof (re_search_Some _ _ _ _ Hs) as [Heq Hg].
    rewrite re_search_unfold in Hs. subst s.
    destruct (match_here ((c :: pre) ++ _)) as [[g0 r0]|] eqn:Hm;
      [discriminate|].
    simpl in Hs.
    destruct (re_search (pre ++ field_open ++ g ++ rbracket :: rest))
      as [[[p1 g1] r1]|] eqn:Hs'; [|discriminate].
    injection Hs as -> -> ->.
    rewrite re_search_unfold.
    rewrite (match_here_stable (c :: pre) g rest g' rest' Hg Hm).
    simpl. now rewrite (IH _ Hs').
Qed.

Lemma re_sub_step repl s :
  re_sub repl s = match re_search s with
                  | Some (pre, g, rest) => pre ++ repl ++ re_sub repl rest
                  | None => s
                  end.
Proof.
  apply (re_sub_elim
           (fun repl s r => r = match re_search s with
                                | Some (pre, g, rest) => pre ++ repl ++ re_sub repl rest
                                | None => s
                                end));
    intros; rewrite e; reflexivity.
Qed.

Lemma re_sub_None repl s : re_search s = None -> re_sub repl s = s.
Proof. intros H. now rewrite re_sub_step, H. Qed.

(** Patching twice with the same field is patching once. *)
Lemma re_sub_idempotent g s :
  clean g ->
  re_sub (field_open ++ g ++ [rbracket]) (re_sub (field_open ++ g ++ [rbracket]) s)
  = re_sub (field_open ++ g ++ [rbracket]) s.
Proof.
  intros Hg. set (repl := field_open ++ g ++ [rbracket]).
  remember (length s) as n eqn:Hn. revert s Hn.
  induction n as [n IH] using lt_wf_ind. intros s ->.
  rewrite (re_sub_step repl s).
  destruct (re_search s) as [[[pre g0] rest]|] eqn:Hs.
  - assert (Hform : pre ++ repl ++ re_sub repl rest
                    = pre ++ field_open ++ g ++ rbracket :: re_sub repl rest).
    { unfold repl. now rewrite <- !app_assoc. }
    rewrite Hform, re_sub_step.
    rewrite (re_search_stable s pre g0 rest g (re_sub repl rest) Hs Hg).
    rewrite (IH (length rest) (re_search_length _ _ _ _ Hs) rest eq_refl).
    now rewrite <- Hform.
  - now apply re_sub_None.
Qed.

(** *** Lines *)

Lemma clean_no_newline g : clean g -> no_newline g.
Proof. intros H. eapply Forall_impl; [exact H|]. now intros c [_ ?]. Qed.

Lemma split_newline_line l s :
  no_newline l -> split newline (l ++ newline :: s) = l :: split newline s.
Proof.
  induction 1 as [|c l Hc _ IH]; simpl; [reflexivity|].
  now rewrite Hc, IH.
Qed.

Lemma split_newline_last l : no_newline l -> split newline l = [l].
Proof.
  induction 1 as [|c l Hc _ IH]; simpl; [reflexivity|].
  now rewrite Hc, IH.
Qed.

(** A text is one line, or a first line, a newline and the rest. *)
Lemma first_line s :
  no_newline s \/ exists l s', s = l ++ newline :: s' /\ no_newline l.
Proof.
  induction s as [|c s IH].
  - left. constructor.
  - destruct (Ascii.eqb c newline) eqn:Hc.
    + right. exists [], s. apply Ascii.eqb_eq in Hc. subst c.
      split; [reflexivity|constructor].
    + destruct IH as [IH|(l & s' & -> & Hl)].
      * left. now constructor.
      * right. exists (c :: l), s'. split; [reflexivity|now constructor].
Qed.

(** A prefix longer than [l] holds the character that follows [l]. *)
Lemma prefix_overlong (p t l : text) (c : ascii) (s : text) :
  p ++ t = l ++ c :: s -> (length l < length p)%nat -> In c p.
Proof.
  revert p. induction l as [|b l IH]; intros [|a p] H Hlen; simpl in *;
    try lia.
  - injection H as -> _. now left.
  - injection H as _ H. right. apply (IH p H). lia.
Qed.

Lemma strip_prefix_line l s t :
  no_newline l ->
  strip_prefix field_open (l ++ newline :: s) = Some t ->
  exists u, l = field_open ++ u /\ t = u ++ newline :: s.
Proof.
  intros Hl H.
  destruct (le_lt_dec (length field_open) (length l)) as [Hle|Hlt].
  - now apply strip_prefix_within.
  - exfalso. apply strip_prefix_Some in H. symmetry in H.
    apply prefix_overlong in H; [|exact Hlt].
    pose proof field_open_no_newline as Hk. unfold no_newline in Hk.
    rewrite Forall_forall in Hk. apply list_elem_of_In in H.
    specialize (Hk _ H). now rewrite Ascii.eqb_refl in Hk.
Qed.

Lemma match_here_line l s :
  no_newline l ->
  match_here (l ++ newline :: s)
  = match match_here l with
    | Some (g, rest) => Some (g, rest ++ newline :: s)
    | None => None
    end.
Proof.
  intros Hl. unfold match_here.
  destruct (strip_prefix field_open (l ++ newline :: s)) as [t|] eqn:Hp.
  - apply strip_prefix_line in Hp as (u & -> & ->); [|exact Hl].
    rewrite strip_prefix_app.
    destruct (lazy_to_bracket_cases u) as [(g0 & r0 & H)|[H|H]].
    + rewrite H. specialize (H []). rewrite !app_nil_r in H. now rewrite H.
    + assert (Hu : lazy_to_bracket u = None).
      { rewrite <- (app_nil_r u), (lazy_to_bracket_clean u [] H). reflexivity. }
      rewrite Hu, (lazy_to_bracket_clean u _ H). reflexivity.
    + rewrite H. specialize (H []). rewrite app_nil_r in H. now rewrite H.
  - destruct (strip_prefix field_open l) as [t|] eqn:Hp'; [|reflexivity].
    apply strip_prefix_Some in Hp'. subst l.
    now rewrite <- app_assoc, strip_prefix_app in Hp.
Qed.

Lemma re_search_line l s :
  no_newline l ->
  re_search (l ++ newline :: s)
  = match re_search l with
    | Some (pre, g, rest) => Some (pre, g, rest ++ newline :: s)
    | None =>
        match re_search s with
        | Some (pre, g, rest) => Some (l ++ newline :: pre, g, rest)
        | None => None
        end
    end.
Proof.
  induction 1 as [|c l Hc Hl IH].
  - rewrite re_search_unfold, (match_here_line [] s) by constructor.
    rewrite (re_search_unfold []).
    destruct (match_here []) as [[g r]|]; [reflexivity|].
    simpl. destruct (re_search s) as [[[p g] r]|]; reflexivity.
  - assert (Hcl : no_newline (c :: l)) by now constructor.
    rewrite re_search_unfold, (re_search_unfold (c :: l)).
    rewrite (match_here_line (c :: l) s Hcl).
    destruct (match_here (c :: l)) as [[g r]|]; [reflexivity|].
    simpl. rewrite IH.
    destruct (re_search l) as [[[p g] r]|]; [reflexivity|].
    destruct (re_search s) as [[[p g] r]|]; reflexivity.
Qed.

Lemma re_search_rest_no_newline l pre g rest :
  no_newline l -> re_search l = Some (pre, g, rest) -> no_newline rest.
Proof.
  intros Hl [-> _]%re_search_Some. unfold no_newline in *.
  rewrite !Forall_app in Hl. destruct Hl as (_ & _ & _ & Hl).
  now inversion Hl.
Qed.

Lemma re_sub_line repl l s :
  no_newline l ->
  re_sub repl (l ++ newline :: s) = re_sub repl l ++ newline :: re_sub repl s.
Proof.
  remember (length l) as n eqn:Hn. revert l Hn.
  induction n as [n IH] using lt_wf_ind. intros l -> Hl.
  rewrite (re_sub_step repl (l ++ _)), (re_sub_step repl l).
  rewrite (re_search_line l s Hl).
  destruct (re_search l) as [[[pre g] rest]|] eqn:Hs.
  - rewrite (IH (length rest) (re_search_length _ _ _ _ Hs) rest eq_refl)
      by (eapply re_search_rest_no_newline; eauto).
    now rewrite <- !app_assoc.
  - rewrite (re_sub_step repl s).
    destruct (re_search s) as [[[pre g] rest]|]; [|reflexivity].
    now rewrite <- app_assoc.
Qed.

Lemma re_sub_no_newline repl l :
  no_newline repl -> no_newline l -> no_newline (re_sub repl l).
Proof.
  intros Hr. remember (length l) as n eqn:Hn. revert l Hn.
  induction n as [n IH] using lt_wf_ind. intros l -> Hl.
  rewrite re_sub_step.
  destruct (re_search l) as [[[pre g] rest]|] eqn:Hs; [|exact Hl].
  pose proof (re_search_rest_no_newline _ _ _ _ Hl Hs) as Hrest.
  apply re_search_Some in Hs as Hform. destruct Hform as [Hform _].
  pose proof (re_search_length _ _ _ _ Hs) as Hlen.
  unfold no_newline in *. rewrite !Forall_app.
  rewrite Hform, Forall_app in Hl. destruct Hl as [Hpre _].
  repeat split; [exact Hpre|exact Hr|].
  now apply (IH (length rest) Hlen rest eq_refl).
Qed.

(** Patching goes line by line. *)
Lemma split_re_sub repl s :
  no_newline repl ->
  split newline (re_sub repl s) = map (re_sub repl) (split newline s).
Proof.
  intros Hr. remember (length s) as n eqn:Hn. revert s Hn.
  induction n as [n IH] using lt_wf_ind. intros s ->.
  destruct (first_line s) as [Hs|(l & s' & -> & Hl)].
  - rewrite (split_newline_last s Hs). simpl.
    now rewrite (split_newline_last _ (re_sub_no_newline repl s Hr Hs)).
  - rewrite (re_sub_line repl l s' Hl).
    rewrite (split_newline_line _ _ (re_sub_no_newline repl l Hr Hl)).
    rewrite (split_newline_line _ _ Hl). simpl. f_equal.
    apply (IH (length s')); [|reflexivity].
    rewrite length_app. simpl. lia.
Qed.

End RegexFacts.

(** ** Printing and reading ints *)

Module IntFacts.
Import Text TextFacts Views.

Lemma pretty_N_char_digit d : digit_char (pretty_N_char d).
Proof.
  unfold pretty_N_char, digit_char.
  repeat case_match; repeat split; try reflexivity; eexists; reflexivity.
Qed.

Lemma pretty_N_char_val d : (d < 10)%N -> digit_val (pretty_N_char d) = Some (Z.of_N d).
Proof.
  intros Hd.
  assert (d = 0 \/ d = 1 \/ d = 2 \/ d = 3 \/ d = 4 \/ d = 5 \/ d = 6 \/ d = 7
          \/ d = 8 \/ d = 9)%N as H by lia.
  repeat (destruct H as [->|H]; [reflexivity|]). now subst d.
Qed.

Lemma pretty_N_go_Forall (P : ascii -> Prop) :
  (forall d, P (pretty_N_char d)) ->
  forall x s, Forall P (lit s) -> Forall P (lit (pretty_N_go x s)).
Proof.
  intros Hd x. induction (N.lt_wf_0 x) as [x _ IH]. intros s Hs.
  destruct (N.eq_dec x 0%N) as [->|Hx].
  - now rewrite pretty_N_go_0.
  - rewrite pretty_N_go_step by lia. apply IH.
    + apply N.div_lt; lia.
    + simpl. constructor; [apply Hd|exact Hs].
Qed.

(** Reading back the digits [pretty_N_go] prints in front of [s]. *)
Lemma int_digits_pretty x : forall s,
  exists k : nat, forall acc,
    int_digits acc (lit (pretty_N_go x s))
    = int_digits (acc * 10 ^ Z.of_nat k + Z.of_N x) (lit s).
Proof.
  induction (N.lt_wf_0 x) as [x _ IH]. intros s.
  destruct (N.eq_dec x 0%N) as [->|Hx].
  - exists 0%nat. intros acc. rewrite pretty_N_go_0. f_equal. simpl. lia.
  - rewrite pretty_N_go_step by lia.
    destruct (IH (x `div` 10)%N) with (s := String (pretty_N_char (x `mod` 10)) s)
      as [k Hk].
    { apply N.div_lt; lia. }
    exists (S k). intros acc. rewrite Hk. simpl lit.
    destruct (pretty_N_char_digit (x `mod` 10)) as (_ & Hu & _).
    simpl int_digits. rewrite Hu.
    rewrite pretty_N_char_val by (apply N.mod_lt; lia).
    f_equal. rewrite Nat2Z.inj_succ, Z.pow_succ_r by lia.
    pose proof (N.div_mod x 10%N ltac:(lia)) as Hdm.
    rewrite Hdm at 3. lia.
Qed.

Lemma pretty_N_go_head x s :
  (0 < x)%N ->
  exists d t, lit (pretty_N_go x s) = pretty_N_char d :: t.
Proof.
  induction (N.lt_wf_0 x) as [x _ IH] in s |- *. intros Hx.
  rewrite pretty_N_go_step by lia.
  destruct (N.eq_dec (x `div` 10)%N 0%N) as [H0|H0].
  - rewrite H0, pretty_N_go_0. simpl. eauto.
  - apply IH.
    + apply N.div_lt; lia.
    + apply N.neq_0_lt_0. exact H0.
Qed.

Lemma lstrip_solid c s : is_space c = false -> lstrip (c :: s) = c :: s.
Proof. intros H. simpl. now rewrite H. Qed.

(** A text that neither starts nor ends with a space is left alone. *)
Lemma strip_ends c s c' s' :
  is_space c = false -> is_space c' = false ->
  c :: s = s' ++ [c'] -> strip (c :: s) = c :: s.
Proof.
  intros Hc Hc' Heq. unfold strip, rstrip. rewrite (lstrip_solid c s Hc).
  rewrite Heq, rev_app_distr. simpl. rewrite Hc'. simpl.
  now rewrite rev_involutive.
Qed.

Lemma py_str_pos p : py_str (Zpos p) = lit (pretty_N_go (Npos p) "").
Proof.
  unfold py_str, pretty, pretty_Z, pretty, pretty_positive, pretty, pretty_N.
  destruct (decide _); [discriminate|reflexivity].
Qed.

Lemma py_str_neg p : py_str (Zneg p) = "-"%char :: lit (pretty_N_go (Npos p) "").
Proof.
  unfold py_str, pretty, pretty_Z, pretty, pretty_positive, pretty, pretty_N.
  destruct (decide _); [discriminate|reflexivity].
Qed.

Lemma digit_int_char c : digit_char c -> int_char c.
Proof. unfold digit_char, int_char. tauto. Qed.

Lemma digits_int_chars p : Forall int_char (lit (pretty_N_go (Npos p) "")).
Proof.
  apply pretty_N_go_Forall; [|constructor].
  intros d. apply digit_int_char, pretty_N_char_digit.
Qed.

Lemma py_str_chars z : Forall int_char (py_str z).
Proof.
  destruct z as [|p|p].
  - repeat constructor.
  - rewrite py_str_pos. apply digits_int_chars.
  - rewrite py_str_neg. constructor; [repeat split|apply digits_int_chars].
Qed.

Lemma py_str_nonempty z : py_str z <> [].
Proof.
  destruct z as [|p|p]; [discriminate| |rewrite py_str_neg; discriminate].
  rewrite py_str_pos.
  destruct (pretty_N_go_head (Npos p) "") as (d & t & ->); [lia|discriminate].
Qed.

Lemma strip_int_chars s : Forall int_char s -> strip s = s.
Proof.
  intros Hs. destruct s as [|c s]; [reflexivity|].
  destruct (exists_last (l := c :: s)) as (s' & c' & Heq); [discriminate|].
  apply (strip_ends c s c' s'); [| |exact Heq].
  - inversion Hs as [|? ? Hc _]. apply Hc.
  - rewrite Heq in Hs. apply Forall_app in Hs as [_ Hs].
    inversion Hs as [|? ? Hc _]. apply Hc.
Qed.

(** [int] skips no character that [str.strip] keeps. *)
Lemma int_space_is_space c : is_space c = false -> is_int_space c = false.
Proof.
  destruct c as [[] [] [] [] [] [] [] []]; vm_compute; congruence.
Qed.

Lemma int_strip_ends c s c' s' :
  is_int_space c = false -> is_int_space c' = false ->
  c :: s = s' ++ [c'] -> int_strip (c :: s) = c :: s.
Proof.
  intros Hc Hc' Heq. unfold int_strip. simpl int_lstrip at 2. rewrite Hc.
  rewrite Heq, rev_app_distr. simpl. rewrite Hc'. simpl.
  now rewrite rev_involutive.
Qed.

Lemma int_strip_int_chars s : Forall int_char s -> int_strip s = s.
Proof.
  intros Hs. destruct s as [|c s]; [reflexivity|].
  destruct (exists_last (l := c :: s)) as (s' & c' & Heq); [discriminate|].
  apply (int_strip_ends c s c' s'); [| |exact Heq].
  - inversion Hs as [|? ? Hc _]. apply int_space_is_space, Hc.
  - rewrite Heq in Hs. apply Forall_app in Hs as [_ Hs].
    inversion Hs as [|? ? Hc _]. apply int_space_is_space, Hc.
Qed.

Lemma int_unsigned_digits p :
  int_unsigned (lit (pretty_N_go (Npos p) "")) = Some (Zpos p).
Proof.
  destruct (pretty_N_go_head (Npos p) "") as (d & t & Hhead); [lia|].
  destruct (int_digits_pretty (Npos p) "") as [k Hk].
  specialize (Hk 0). simpl in Hk. rewrite Hhead in Hk |- *.
  destruct (pretty_N_char_digit d) as (_ & Hu & _ & _ & _ & _ & _ & v & Hv).
  simpl in Hk |- *. rewrite Hu, Hv in Hk. rewrite Hv.
  simpl in Hk. exact Hk.
Qed.

(** [int(str(z))] is [z]. *)
Lemma py_int_py_str z : py_int (py_str z) = Some z.
Proof.
  unfold py_int. rewrite (int_strip_int_chars _ (py_str_chars z)).
  destruct z as [|p|p].
  - reflexivity.
  - pose proof (int_unsigned_digits p) as Hp. rewrite py_str_pos.
    destruct (pretty_N_go_head (Npos p) "") as (d & t & Hhead); [lia|].
    rewrite Hhead in Hp |- *.
    destruct (pretty_N_char_digit d) as (_ & _ & Hm & Hplus & _).
    now rewrite Hm, Hplus.
  - rewrite py_str_neg. simpl. now rewrite int_unsigned_digits.
Qed.

End IntFacts.

(** ** The dumped list *)

Module DumpsFacts.
Import Text Manifest TextFacts RegexFacts IntFacts Views.

Lemma split_piece sep l s :
  Forall (fun c => Ascii.eqb c sep = false) l ->
  split sep (l ++ sep :: s) = l :: split sep s.
Proof.
  induction 1 as [|c l Hc _ IH]; simpl.
  - now rewrite Ascii.eqb_refl.
  - now rewrite Hc, IH.
Qed.

Lemma split_whole sep l :
  Forall (fun c => Ascii.eqb c sep = false) l -> split sep l = [l].
Proof.
  induction 1 as [|c l Hc _ IH]; simpl; [reflexivity|].
  now rewrite Hc, IH.
Qed.

Lemma py_str_no_comma z : Forall (fun c => Ascii.eqb c comma = false) (py_str z).
Proof.
  eapply Forall_impl; [apply py_str_chars|]. now intros c (_ & H & _).
Qed.

(** The pieces between the commas of a dumped list: the first int, then
    every other int after a space. *)
Lemma split_dumps_body x xs :
  split comma (dumps_body (x :: xs))
  = py_str x :: map (fun y => " "%char :: py_str y) xs.
Proof.
  revert x. induction xs as [|y ys IH]; intros x.
  - unfold dumps_body. simpl. apply split_whole, py_str_no_comma.
  - change (dumps_body (x :: y :: ys))
      with (py_str x ++ comma :: " "%char :: dumps_body (y :: ys)).
    rewrite (split_piece comma _ _ (py_str_no_comma x)).
    simpl. now rewrite IH.
Qed.

Lemma strip_spaced z : strip (" "%char :: py_str z) = py_str z.
Proof.
  unfold strip. simpl.
  pose proof (strip_int_chars _ (py_str_chars z)) as H. unfold strip in H.
  destruct (py_str z) as [|c s] eqn:Hz; [reflexivity|].
  pose proof (py_str_chars z) as Hc. rewrite Hz in Hc.
  inversion Hc as [|? ? (Hsp & _) _]. subst.
  rewrite (lstrip_solid c s Hsp) in H |- *. exact H.
Qed.

Lemma mapM_spaced xs :
  mapM (fun idx => py_int (strip idx)) (map (fun y => " "%char :: py_str y) xs)
  = Some xs.
Proof.
  apply (mapM_fmap_Forall_Some (fun idx => py_int (strip idx))
           (fun y => " "%char :: py_str y)).
  apply Forall_forall. intros y _. now rewrite strip_spaced, py_int_py_str.
Qed.

Lemma dumps_body_ends x xs :
  exists c s c' s',
    dumps_body (x :: xs) = c :: s /\ c :: s = s' ++ [c']
    /\ is_space c = false /\ is_space c' = false.
Proof.
  revert x. induction xs as [|y ys IH]; intros x.
  - unfold dumps_body. simpl.
    pose proof (py_str_chars x) as Hc. pose proof (py_str_nonempty x) as Hn.
    destruct (py_str x) as [|c s] eqn:Hx; [contradiction|].
    destruct (exists_last (l := c :: s)) as (s' & c' & Heq); [discriminate|].
    exists c, s, c', s'. repeat split; [exact Heq| |].
    + inversion Hc as [|? ? Hh _]. apply Hh.
    + rewrite Heq in Hc. apply Forall_app in Hc as [_ Hc].
      inversion Hc as [|? ? Hh _]. apply Hh.
  - destruct (IH y) as (c1 & s1 & c' & s' & Hb & Heq & _ & Hc').
    change (dumps_body (x :: y :: ys))
      with (py_str x ++ comma :: " "%char :: dumps_body (y :: ys)).
    pose proof (py_str_chars x) as Hc. pose proof (py_str_nonempty x) as Hn.
    destruct (py_str x) as [|c s] eqn:Hx; [contradiction|].
    exists c, (s ++ comma :: " "%char :: dumps_body (y :: ys)), c',
      (c :: s ++ comma :: " "%char :: s').
    repeat split.
    + simpl. rewrite Hb, Heq. now rewrite <- !app_assoc.
    + inversion Hc as [|? ? Hh _]. apply Hh.
    + exact Hc'.
Qed.

(** Reading back what [json.dumps] put between the brackets. *)
Lemma parse_dumps_body l : parse_indexes (dumps_body l) = Some (list_to_set l).
Proof.
  destruct l as [|x xs]; [reflexivity|].
  unfold parse_indexes.
  destruct (dumps_body_ends x xs) as (c & s & c' & s' & Hb & Heq & Hc & Hc').
  rewrite Hb, (strip_ends c s c' s' Hc Hc' Heq). lazy match. rewrite <- Hb.
  rewrite split_dumps_body.
  assert (Hm : mapM (fun idx => py_int (strip idx))
                 (py_str x :: map (fun y => " "%char :: py_str y) xs)
               = Some (x :: xs)).
  { apply mapM_Some_2. constructor.
    - now rewrite (strip_int_chars _ (py_str_chars x)), py_int_py_str.
    - apply mapM_Some_1, mapM_spaced. }
  now rewrite Hm.
Qed.

Lemma join_Forall (P : ascii -> Prop) sep parts :
  Forall P sep -> Forall (Forall P) parts -> Forall P (join sep parts).
Proof.
  intros Hsep. induction 1 as [|p ps Hp Hps IH]; simpl; [constructor|].
  destruct ps as [|q ps]; [exact Hp|].
  apply Forall_app; split; [exact Hp|].
  apply Forall_app; split; [exact Hsep|exact IH].
Qed.

Lemma dumps_body_clean l : clean (dumps_body l).
Proof.
  unfold dumps_body, clean. apply join_Forall.
  - repeat constructor.
  - apply Forall_forall. intros t Ht.
    apply list_elem_of_fmap in Ht as (z & -> & _).
    eapply Forall_impl; [apply py_str_chars|].
    now intros c (_ & _ & Hb & Hn).
Qed.

Lemma sorted_indexes_set (S : gset Z) : list_to_set (sorted_indexes S) = S.
Proof.
  unfold sorted_indexes.
  etrans; [|apply list_to_set_elements_L].
  apply list_to_set_perm_L, merge_sort_Permutation.
Qed.

Lemma sorted_indexes_sorted (S : gset Z) : Sorted Z.le (sorted_indexes S).
Proof. unfold sorted_indexes. apply (Sorted_merge_sort Z.le). Qed.

End DumpsFacts.

(** ** Reading a patched manifest *)

Module PatchFacts.
Import Text Manifest TextFacts RegexFacts IntFacts DumpsFacts Views.

(** The replacement is the head of the pattern, a group and a bracket. *)
Lemma replacement_form (S : gset Z) :
  replacement S = field_open ++ dumps_body (sorted_indexes S) ++ [rbracket].
Proof.
  unfold replacement, json_dumps. rewrite field_open_marker.
  now rewrite <- !app_assoc.
Qed.

Lemma replacement_no_newline (S : gset Z) : no_newline (replacement S).
Proof.
  rewrite replacement_form. unfold no_newline. rewrite !Forall_app.
  repeat split.
  - apply field_open_no_newline.
  - apply clean_no_newline, dumps_body_clean.
  - repeat constructor.
Qed.

Local Opaque field_open field_marker.

Lemma read_deleted_lines_field lines :
  read_deleted_lines lines
  = match first_field_line lines with
    | Some line => match re_search line with
                   | Some (_, group, _) => parse_indexes group
                   | None => Some ∅
                   end
    | None => Some ∅
    end.
Proof.
  induction lines as [|l lines IH]; simpl; [reflexivity|].
  destruct (contains field_marker l); [reflexivity|exact IH].
Qed.

Lemma re_search_contains l pre g rest :
  re_search l = Some (pre, g, rest) -> contains field_marker l = true.
Proof.
  intros [-> _]%re_search_Some. rewrite field_open_marker, <- app_assoc.
  apply contains_app.
Qed.

Lemma re_sub_without_marker repl l :
  contains field_marker l = false -> re_sub repl l = l.
Proof.
  intros Hc. apply re_sub_None.
  destruct (re_search l) as [[[pre g] rest]|] eqn:Hs; [|reflexivity].
  apply re_search_contains in Hs. congruence.
Qed.

Lemma read_deleted_lines_patch (S : gset Z) lines :
  read_deleted_lines (map (re_sub (replacement S)) lines)
  = match first_field_line lines with
    | Some line => match re_search line with
                   | Some _ => Some S
                   | None => Some ∅
                   end
    | None => Some ∅
    end.
Proof.
  induction lines as [|l lines IH]; simpl; [reflexivity|].
  destruct (contains field_marker l) eqn:Hc.
  - destruct (re_search l) as [[[pre g] rest]|] eqn:Hs.
    + rewrite re_sub_step, Hs, replacement_form, <- !app_assoc. simpl.
      pose proof (re_search_stable l pre g rest
                    (dumps_body (sorted_indexes S))
                    (re_sub (field_open ++ dumps_body (sorted_indexes S)
                             ++ [rbracket]) rest)
                    Hs (dumps_body_clean _)) as Hnew.
      rewrite (re_search_contains _ _ _ _ Hnew), Hnew.
      now rewrite parse_dumps_body, sorted_indexes_set.
    + rewrite (re_sub_None _ _ Hs), Hc, Hs. reflexivity.
  - rewrite (re_sub_without_marker _ _ Hc), Hc. exact IH.
Qed.

(** The deletion index read from a patched manifest. *)
Lemma read_deleted_patch c (S : gset Z) :
  read_deleted (patch c S)
  = match first_field_line (split newline c) with
    | Some line => match re_search line with
                   | Some _ => Some S
                   | None => Some ∅
                   end
    | None => Some ∅
    end.
Proof.
  unfold read_deleted, patch.
  rewrite (split_re_sub _ _ (replacement_no_newline S)).
  apply read_deleted_lines_patch.
Qed.

(** After a patch either the new index is read, or the empty index is
    read as it was before the patch. *)
Lemma read_deleted_patch_cases c (D S : gset Z) :
  read_deleted c = Some D ->
  read_deleted (patch c S) = Some S
  \/ (D = ∅ /\ read_deleted (patch c S) = Some ∅).
Proof.
  rewrite read_deleted_patch. unfold read_deleted.
  rewrite read_deleted_lines_field.
  destruct (first_field_line (split newline c)) as [l|].
  - destruct (re_search l) as [[[pre g] rest]|]; [now left|].
    intros [= <-]. now right.
  - intros [= <-]. now right.
Qed.

Lemma patch_idempotent c (S : gset Z) : patch (patch c S) S = patch c S.
Proof.
  unfold patch. rewrite replacement_form.
  apply re_sub_idempotent, dumps_body_clean.
Qed.

End PatchFacts.

(** ** Reading in text mode *)

Module NewlineFacts.
Import Text Manifest Audit Views RegexFacts IntFacts DumpsFacts PatchFacts.

(** What text mode reads holds no carriage return. *)
Lemma read_text_no_cr bytes : no_cr (read_text bytes).
Proof.
  remember (length bytes) as n eqn:Hn. revert bytes Hn.
  induction n as [n IH] using lt_wf_ind. intros [|c rest] ->; [constructor|].
  simpl. destruct (Ascii.eqb c carriage_return) eqn:Hc.
  - constructor; [reflexivity|].
    destruct rest as [|d rest']; [constructor|].
    destruct (Ascii.eqb d newline).
    + apply (IH (length rest')); [simpl; lia|reflexivity].
    + apply (IH (length (d :: rest'))); [simpl; lia|reflexivity].
  - constructor; [exact Hc|].
    apply (IH (length rest)); [simpl; lia|reflexivity].
Qed.

(** A text without a carriage return is read as it is. *)
Lemma read_text_id s : no_cr s -> read_text s = s.
Proof.
  induction 1 as [|c s Hc _ IH]; [reflexivity|].
  simpl. rewrite Hc. now f_equal.
Qed.

Lemma manifest_no_cr tub content : manifest tub = Some content -> no_cr content.
Proof.
  unfold manifest. destruct (manifest_file tub) as [bytes|]; [|discriminate].
  intros [= <-]. apply read_text_no_cr.
Qed.

Lemma manifest_set_manifest tub content :
  no_cr content -> manifest (set_manifest tub content) = Some content.
Proof. intros H. unfold manifest. simpl. now rewrite (read_text_id _ H). Qed.

Lemma space_not_cr c : is_space c = false -> Ascii.eqb c carriage_return = false.
Proof.
  destruct c as [[] [] [] [] [] [] [] []]; vm_compute; congruence.
Qed.

Lemma replacement_no_cr (S : gset Z) : no_cr (replacement S).
Proof.
  unfold replacement, json_dumps, dumps_body, no_cr.
  repeat (apply Forall_cons; split; [reflexivity|]).
  apply Forall_app; split; [|repeat constructor].
  apply join_Forall; [repeat constructor|].
  apply Forall_forall. intros t Ht.
  apply list_elem_of_fmap in Ht as (z & -> & _).
  eapply Forall_impl; [apply py_str_chars|].
  intros c (Hs & _). now apply space_not_cr.
Qed.

Lemma re_sub_no_cr repl s : no_cr repl -> no_cr s -> no_cr (re_sub repl s).
Proof.
  intros Hr. remember (length s) as n eqn:Hn. revert s Hn.
  induction n as [n IH] using lt_wf_ind. intros s -> Hs.
  rewrite re_sub_step.
  destruct (re_search s) as [[[pre g] rest]|] eqn:Hsearch; [|exact Hs].
  pose proof (re_search_length _ _ _ _ Hsearch) as Hlen.
  apply re_search_Some in Hsearch as [Hform _].
  unfold no_cr in *. rewrite Hform in Hs.
  rewrite !Forall_app, Forall_cons in Hs.
  destruct Hs as (Hpre & _ & _ & _ & Hrest).
  rewrite !Forall_app. repeat split; [exact Hpre|exact Hr|].
  now apply (IH (length rest) Hlen rest eq_refl).
Qed.

Lemma patch_no_cr content (S : gset Z) : no_cr content -> no_cr (patch content S).
Proof. apply re_sub_no_cr, replacement_no_cr. Qed.

(** The manifest read from a tub whose manifest was patched. *)
Lemma manifest_patched tub tub' content (S : gset Z) :
  manifest tub = Some content ->
  manifest (set_manifest tub' (patch content S)) = Some (patch content S).
Proof.
  intros H. apply manifest_set_manifest, patch_no_cr, (manifest_no_cr tub), H.
Qed.

End NewlineFacts.

(** ** A second run *)

Module RerunFacts.
Import Text Manifest Effects EffectsFacts Audit AuditFacts AuditValues RunFacts Views.
Import DeletedFacts SequenceFacts PatchFacts NewlineFacts.

(** What a step of a growing fold adds is in the result of the fold. *)
Lemma fold_left_reaches {A B} (step : list B -> A -> list B) (xs : list A) :
  (forall s x e, e ∈ s -> e ∈ step s x) ->
  forall x, x ∈ xs ->
  forall s, exists s0, forall e, e ∈ step s0 x -> e ∈ fold_left step xs s.
Proof.
  intros Hgrow x Hx. induction xs as [|a xs IH]; intros s.
  - now apply elem_of_nil in Hx.
  - simpl. apply elem_of_cons in Hx as [<-|Hx].
    + exists s. intros e He.
      apply (fold_left_invariant (fun l => e ∈ l)); [|exact He].
      intros. now apply Hgrow.
    + apply (IH Hx).
Qed.

Section Rerun.
Variables (w : World) (tub_path : text) (D : gset Z).
Variables (minb maxb : F64.float) (maxz : Z) (recs : list record).

Let found : list problem := problems_of w tub_path D minb maxb maxz recs.
Let D' : gset Z := D ∪ list_to_set (map problem_index found).

Lemma merged_index i : i ∈ D' <-> i ∈ D \/ i ∈ map problem_index found.
Proof. unfold D'. rewrite elem_of_union, elem_of_list_to_set. reflexivity. Qed.

(** A record outside the merged index had nothing to report in the first
    loop. *)
Lemma unflagged_record_verdict r :
  r ∈ recs -> _index r ∉ D' -> record_verdict w tub_path minb maxb r = [].
Proof.
  intros Hr HD'. rewrite merged_index in HD'.
  destruct (record_verdict w tub_path minb maxb r) as [|e l] eqn:Hv;
    [reflexivity|].
  exfalso. apply HD'. right.
  assert (He : e ∈ record_verdict w tub_path minb maxb r)
    by (rewrite Hv; left).
  rewrite <- (record_verdict_index w tub_path minb maxb r e He).
  apply list_elem_of_fmap. exists e. split; [reflexivity|].
  unfold found, problems_of.
  apply (fold_left_invariant (fun l => e ∈ l)).
  - intros. now apply sequence_step_grows.
  - apply first_pass_keeps with (r := r); auto.
Qed.

(** Nor had it anything to report as a position of a flagged run. *)
Lemma unflagged_zero_entry sequence idx r :
  sequence ∈ get_zero_angle_sequences recs ->
  flagged_run maxz recs sequence = true ->
  idx ∈ sequence -> recs !! idx = Some r ->
  _index r ∉ D' -> zero_entry w tub_path r = [].
Proof.
  intros Hseq Hflag Hidx Hl HD'. rewrite merged_index in HD'.
  destruct (fold_left_reaches (sequence_step w tub_path D maxz recs)
              (get_zero_angle_sequences recs)
              (sequence_step_grows w tub_path D maxz recs) sequence Hseq
              (fold_left (record_step w tub_path D minb maxb) recs []))
    as [s0 Hs0].
  fold (problems_of w tub_path D minb maxb maxz recs) in Hs0. fold found in Hs0.
  unfold sequence_step in Hs0. rewrite Hflag in Hs0.
  destruct (fold_left_reaches (flag_step w tub_path D recs) sequence
              (flag_step_grows w tub_path D recs) idx Hidx s0) as [s1 Hs1].
  assert (Hfound : forall e, e ∈ flag_step w tub_path D recs s1 idx -> e ∈ found)
    by (intros e He; apply Hs0, Hs1, He).
  assert (Hnot : _index r ∉ map problem_index found) by tauto.
  assert (HnD : _index r ∉ D) by tauto.
  unfold flag_step in Hfound. rewrite Hl in Hfound.
  rewrite (bool_decide_eq_true_2 _ HnD) in Hfound. simpl in Hfound.
  assert (Hfresh : already_flagged (_index r) s1 = false).
  { unfold already_flagged. apply bool_decide_eq_false_2. intros Hin.
    apply Hnot. apply list_elem_of_fmap in Hin as (e & He & Hin).
    apply list_elem_of_fmap. exists e. split; [exact He|].
    apply Hfound. destruct (negb _); [apply elem_of_app; now left|exact Hin]. }
  rewrite Hfresh in Hfound. simpl in Hfound.
  destruct (zero_entry w tub_path r) as [|e l] eqn:Hz; [reflexivity|].
  exfalso. apply Hnot.
  assert (He : e ∈ zero_entry w tub_path r) by (rewrite Hz; left).
  rewrite <- (zero_entry_index w tub_path r e He).
  apply list_elem_of_fmap. exists e. split; [reflexivity|].
  apply Hfound, elem_of_app. right. left.
Qed.

(** With the found problems removed, nothing more is found. *)
Lemma problems_of_merged : problems_of w tub_path D' minb maxb maxz recs = [].
Proof.
  unfold problems_of.
  assert (Hfirst : fold_left (record_step w tub_path D' minb maxb) recs [] = []).
  { apply (fold_left_invariant (fun l => l = [])); [|reflexivity].
    intros s r Hr ->. unfold record_step.
    destruct (decide _) as [|Hn]; [reflexivity|].
    now rewrite (unflagged_record_verdict r Hr Hn). }
  rewrite Hfirst.
  apply (fold_left_invariant (fun l => l = [])); [|reflexivity].
  intros s sequence Hseq ->. unfold sequence_step.
  destruct (flagged_run maxz recs sequence) eqn:Hflag; [|reflexivity].
  apply (fold_left_invariant (fun l => l = [])); [|reflexivity].
  intros s idx Hidx ->. unfold flag_step.
  destruct (recs !! idx) as [r|] eqn:Hl; [|reflexivity].
  destruct (bool_decide (_index r ∉ D')) eqn:Hd; [|reflexivity].
  apply bool_decide_eq_true in Hd.
  rewrite (unflagged_zero_entry sequence idx r Hseq Hflag Hidx Hl Hd).
  now destruct (_ && _).
Qed.

End Rerun.

Lemma readable_cases tub :
  (exists content D, readable tub content D)
  \/ (forall content D, ~ readable tub content D).
Proof.
  unfold readable.
  destruct (root_exists tub); [|right; intros ? ? (? & _); discriminate].
  destruct (catalog_files tub) as [|f fs];
    [right; intros ? ? (_ & ? & _); contradiction|].
  destruct (manifest tub) as [c|];
    [|right; intros ? ? (_ & _ & ? & _); discriminate].
  destruct (read_deleted c) as [D|] eqn:Hr.
  - left. exists c, D. repeat split; congruence.
  - right. intros ? ? (_ & _ & Hm & Hd). congruence.
Qed.

(** The tub after a second run with [remove] is the tub after the
    first. *)
Lemma rerun_fixed w tub_path tub maxb minb maxz :
  let tub1 := tub_after tub (clean_tub_data w tub_path tub true maxb minb maxz) in
  tub_after tub1 (clean_tub_data w tub_path tub1 true maxb minb maxz) = tub1.
Proof.
  intros tub1.
  assert (Hsame : tub1 = tub ->
            tub_after tub1 (clean_tub_data w tub_path tub1 true maxb minb maxz)
            = tub1).
  { intros Heq. rewrite Heq. exact Heq. }
  destruct (readable_cases tub) as [(c & D & Hr)|Hn].
  2:{ apply Hsame. unfold tub1.
      apply tub_after_probes.
      destruct (clean_tub_data_unreadable w tub_path tub true maxb minb maxz Hn)
        as [-> _]. constructor. }
  pose proof (tub_after_readable w tub_path tub true maxb minb maxz c D Hr) as H1.
  fold tub1 in H1. simpl in H1.
  set (recs := read_catalogs (catalog_files tub)) in *.
  destruct (problems_of w tub_path D minb maxb maxz recs) as [|p ps] eqn:Hfound;
    [now apply Hsame|].
  destruct (manifest_writable tub) eqn:Hw; [|now apply Hsame].
  set (S := D ∪ list_to_set (map problem_index (p :: ps))) in *.
  assert (Hmerged : problems_of w tub_path S minb maxb maxz recs = []).
  { unfold S. rewrite <- Hfound. apply problems_of_merged. }
  destruct Hr as (Hroot & Hcat & Hman & Hread).
  assert (Hr1 : forall D1, read_deleted (patch c S) = Some D1 ->
                           readable tub1 (patch c S) D1).
  { intros D1 HD1. rewrite H1. unfold readable.
    rewrite (manifest_patched tub tub c S Hman). simpl. auto. }
  assert (Hrecs : read_catalogs (catalog_files tub1) = recs)
    by (rewrite H1; reflexivity).
  assert (Hw1 : manifest_writable tub1 = true) by (rewrite H1; exact Hw).
  destruct (read_deleted_patch_cases c D S Hread) as [HS|[HD HS]].
  - rewrite (tub_after_readable w tub_path tub1 true maxb minb maxz _ _ (Hr1 _ HS)).
    now rewrite Hrecs, Hmerged.
  - rewrite (tub_after_readable w tub_path tub1 true maxb minb maxz _ _ (Hr1 _ HS)).
    rewrite Hrecs, Hw1. subst D. rewrite Hfound. simpl.
    fold S. rewrite patch_idempotent. now rewrite H1.
Qed.

End RerunFacts.

(** * The claims *)

Import Text Manifest Effects EffectsFacts Audit AuditFacts AuditValues RunFacts Views.
Import DeletedFacts CatalogFacts MainFacts SequenceFacts.
Import TextFacts RegexFacts IntFacts DumpsFacts PatchFacts NewlineFacts RerunFacts.

(** C1.  A record whose index is in the deletion index read from the
    manifest yields no problem entry: the report of a completed run holds
    no entry with such an index; the body of the first loop returns the
    problems it was given without probing anything; and so does the body
    of the loop that flags the positions of a zero-angle run. *)
Theorem deleted_index_never_flagged (w : World) (tub_path : text) (tub : Tub)
    (remove : bool) (maxb minb : F64.float) (maxz : Z)
    (content : text) (D : gset Z) :
  manifest tub = Some content ->
  read_deleted content = Some D ->
  (forall rep p,
      value (clean_tub_data w tub_path tub remove maxb minb maxz) = Ok (Completed rep) ->
      p ∈ problem_images rep -> problem_index p ∉ D)
  /\ (forall probs r,
        _index r ∈ D ->
        check_record w tub_path D minb maxb probs r = (Ok probs, []))
  /\ (forall recs probs idx r,
        recs !! idx = Some r -> _index r ∈ D ->
        flag_position w tub_path D recs probs idx = (Ok probs, [])).
Proof.
  intros Hman Hread. split; [|split].
  - intros rep p Hv Hin.
    destruct (completed_report _ _ _ _ _ _ _ _ Hv) as (c & D' & Hr & ->).
    destruct Hr as (_ & _ & Hm & Hd).
    assert (c = content) by congruence. subst c.
    assert (D' = D) by congruence. subst D'.
    exact (problems_of_outside w tub_path D minb maxb maxz _ p Hin).
  - intros probs r Hin. unfold check_record.
    destruct (decide _); [reflexivity|contradiction].
  - intros recs probs idx r Hl Hin. unfold flag_position. rewrite Hl.
    rewrite bool_decide_eq_false_2 by (intros Hn; now apply Hn).
    reflexivity.
Qed.

(** C1 on three straight frames of which the second is deleted. *)
Lemma deleted_index_never_flagged_witness :
  (problem_index (0, lit "data/frame.jpg", ZeroAngleRun) ∉ ({[1]} : gset Z))
  /\ check_record Examples.bright_world Examples.tub_path {[1]}
       (F64.of_Z 20) (F64.of_Z 250) [] (Examples.frame 1 Examples.f0_02)
     = (Ok [], [])
  /\ flag_position Examples.bright_world Examples.tub_path {[1]}
       Examples.straight_run [] 1
     = (Ok [], []).
Proof.
  destruct (deleted_index_never_flagged Examples.bright_world Examples.tub_path
              (Examples.tub_of [Examples.straight_run] (Examples.manifest_of "1"))
              true (F64.of_Z 250) (F64.of_Z 20) 2
              (Examples.manifest_of "1") {[1]})
    as (Hrep & Hfirst & Hsecond).
  - reflexivity.
  - vm_compute. reflexivity.
  - split; [|split].
    + apply (Hrep {| deleted_count := 1; total_records := 3;
                     problem_images :=
                       [(0, lit "data/frame.jpg", ZeroAngleRun);
                        (2, lit "data/frame.jpg", ZeroAngleRun)] |}).
      * vm_compute. reflexivity.
      * left.
    + apply Hfirst. simpl. apply elem_of_singleton. reflexivity.
    + apply (Hsecond _ _ _ (Examples.frame 1 Examples.f0_02)).
      * reflexivity.
      * simpl. apply elem_of_singleton. reflexivity.
Defined.

(** C2 as the specification states it fails.  A manifest whose field has
    no space after the colon: the index read is empty, the commit writes
    the manifest back as it was, and the index read afterwards is empty
    again, not the flagged index 5.  A manifest with a second field of
    the same name: the commit rewrites both, so that text outside the
    field that is read has changed.  A manifest whose lines end in a
    carriage return and a line feed: it is read with line feeds alone and
    written back so, and the bytes before the field have changed. *)
Lemma commit_misses_or_overwrites :
  let tub := Examples.tub_of [] (Examples.compact_manifest "1") in
  let compact := Examples.compact_manifest "1" in
  let probs := [(5, lit "data/frame.jpg", MissingFile)] in
  (contains field_marker compact = true
   /\ read_deleted compact = Some ∅
   /\ commit tub compact ∅ probs = (Ok tt, [EvWriteManifest compact])
   /\ read_deleted compact <> Some (∅ ∪ list_to_set (map problem_index probs)))
  /\ (read_deleted Examples.nested_manifest = Some {[1]}
      /\ patch Examples.nested_manifest ({[1]} ∪ list_to_set (map problem_index probs))
         = lit "{" ++ field_marker ++ lit " [1, 5], " ++ dquote :: lit "backup"
           ++ dquote :: lit ": {" ++ field_marker ++ lit " [1, 5]}}")
  /\ (let head := lit "[]" ++ [carriage_return; newline] in
      let dos := Examples.tub_of [] (head ++ Examples.manifest_of "1") in
      manifest dos = Some (lit "[]" ++ newline :: Examples.manifest_of "1")
      /\ manifest_file
           (tub_after dos
              (commit dos (lit "[]" ++ newline :: Examples.manifest_of "1") {[1]} probs))
         = Some (lit "[]" ++ newline :: Examples.manifest_of "1, 5")
      /\ lit "[]" ++ newline :: Examples.manifest_of "1, 5"
         <> head ++ Examples.manifest_of "1, 5").
Proof.
  repeat split; try (vm_compute; reflexivity); vm_compute; discriminate.
Qed.

(** C2, amended.  For a store whose manifest, as text mode reads it, has
    as its first line holding the marker ["deleted_indexes":] a line with
    a match of the pattern ["deleted_indexes": \[(.*?)\]]: after the
    commit, the index loaded from the store is the union of the index
    read before and the flagged indexes, written in ascending order.
    When moreover the pattern matches exactly once in the manifest, the
    file written is the text read with that match replaced by the new
    field, everything before and after the match being kept; and for a
    manifest without a carriage return the text read is the bytes of the
    file, so that every byte outside the match is kept. *)
Theorem commit_then_load_roundtrip (tub : Tub) (content : text) (D : gset Z)
    (probs : list problem) (line : text) :
  manifest tub = Some content ->
  manifest_writable tub = true ->
  read_deleted content = Some D ->
  first_field_line (split newline content) = Some line ->
  re_search line <> None ->
  let S := D ∪ list_to_set (map problem_index probs) in
  let tub' := tub_after tub (commit tub content D probs) in
  (manifest tub' ≫= read_deleted) = Some S
  /\ Sorted Z.le (sorted_indexes S)
  /\ list_to_set (sorted_indexes S) = S
  /\ (forall pre group post,
        re_search content = Some (pre, group, post) ->
        re_search post = None ->
        content = pre ++ field_marker ++ lit " [" ++ group ++ lit "]" ++ post
        /\ manifest_file tub'
           = Some (pre ++ field_marker ++ lit " " ++ json_dumps (sorted_indexes S)
                   ++ post))
  /\ (forall bytes,
        manifest_file tub = Some bytes -> no_cr bytes -> content = bytes).
Proof.
  intros Hman Hw Hread Hline Hmatch S tub'.
  assert (Hafter : tub' = set_manifest tub (patch content S)).
  { unfold tub', tub_after, commit, write_manifest. fold S. now rewrite Hw. }
  split; [|split; [|split; [|split]]].
  - rewrite Hafter, (manifest_patched tub tub content S Hman). simpl.
    rewrite read_deleted_patch, Hline.
    destruct (re_search line); [reflexivity|contradiction].
  - apply sorted_indexes_sorted.
  - apply sorted_indexes_set.
  - intros pre group post Hsearch Hpost. split.
    + apply re_search_Some in Hsearch as [-> _].
      rewrite field_open_marker. now rewrite <- !app_assoc.
    + rewrite Hafter. unfold set_manifest. cbn [manifest_file]. f_equal.
      unfold patch.
      rewrite re_sub_step, Hsearch, (re_sub_None _ _ Hpost).
      unfold replacement. now rewrite <- !app_assoc.
  - intros bytes Hbytes Hcr. unfold manifest in Hman. rewrite Hbytes in Hman.
    simpl in Hman. injection Hman as <-. now apply read_text_id.
Qed.

(** C2, amended, on a manifest that lists 3 and 1 when the index 5 is
    flagged. *)
Lemma commit_then_load_roundtrip_witness :
  let content := Examples.manifest_of "3, 1" in
  let tub := Examples.tub_of [] content in
  let pre := lit "{" ++ dquote :: lit "paths" ++ dquote :: lit ": [], " in
  let tub' := tub_after tub
                (commit tub content {[1; 3]} [(5, lit "data/frame.jpg", MissingFile)]) in
  (manifest tub' ≫= read_deleted) = Some {[1; 3; 5]}
  /\ content = pre ++ field_marker ++ lit " [" ++ lit "3, 1" ++ lit "]" ++ lit "}"
  /\ manifest_file tub'
     = Some (pre ++ field_marker ++ lit " " ++ lit "[1, 3, 5]" ++ lit "}")
  /\ read_text content = content.
Proof.
  intros content tub pre tub'.
  destruct (commit_then_load_roundtrip tub content {[1; 3]}
              [(5, lit "data/frame.jpg", MissingFile)] content)
    as (Hload & _ & _ & Hkept & Hbytes).
  - vm_compute. reflexivity.
  - reflexivity.
  - vm_compute. reflexivity.
  - vm_compute. reflexivity.
  - vm_compute. discriminate.
  - destruct (Hkept pre (lit "3, 1") (lit "}")) as [Hform Hfile];
      [vm_compute; reflexivity|vm_compute; reflexivity|].
    split; [|split; [exact Hform|split]].
    + etrans; [exact Hload|]. vm_compute. reflexivity.
    + etrans; [exact Hfile|]. vm_compute. reflexivity.
    + apply (Hbytes content); [reflexivity|].
      vm_compute. repeat constructor.
Defined.

(** C3 as the specification states it fails: three records with angles
    0.01, 0.02, 0.01 and no image reference form a run longer than the
    threshold 2, with both averages zero, none of them deleted and none
    flagged by the first loop; the run is examined and no position of it
    is flagged. *)
Lemma run_without_image_reference_not_flagged :
  let recs := [Examples.blind_frame 0 Examples.f0_01;
               Examples.blind_frame 1 Examples.f0_02;
               Examples.blind_frame 2 Examples.f0_01] in
  let sequence := [0; 1; 2]%nat in
  get_zero_angle_sequences recs = [sequence]
  /\ (2 <? Z.of_nat (length sequence)) = true
  /\ F64.leb (pre_avg recs sequence) F64.c0_1 = true
  /\ F64.leb (post_avg recs sequence) F64.c0_1 = true
  /\ value (for_each (check_record Examples.bright_world Examples.tub_path ∅
                        (F64.of_Z 20) (F64.of_Z 250)) recs []) = Ok []
  /\ value (find_problems Examples.bright_world Examples.tub_path ∅
              (F64.of_Z 20) (F64.of_Z 250) 2 recs) = Ok [].
Proof.
  repeat split; vm_compute; reflexivity.
Qed.

(** C3, amended.  For a zero-angle run longer than
    [max_zero_angle_count]: when the averages before and after it are
    both at most 0.1, every position of the run whose record has an
    image reference, is not deleted and was not flagged by the first
    loop has its index flagged as a zero-angle run in the result of the
    two loops, while a position whose record has no image reference adds
    nothing; when either average is above 0.1, the run adds no entry and
    probes nothing. *)
Theorem zero_angle_run_flagged_or_suppressed (w : World) (tub_path : text)
    (D : gset Z) (minb maxb : F64.float) (maxz : Z)
    (recs : list record) (sequence : list nat) :
  sequence ∈ get_zero_angle_sequences recs ->
  maxz < Z.of_nat (length sequence) ->
  (F64.leb (pre_avg recs sequence) F64.c0_1 = true ->
   F64.leb (post_avg recs sequence) F64.c0_1 = true ->
   forall idx r f first,
     idx ∈ sequence -> recs !! idx = Some r ->
     cam_image_array r = Some f -> f <> [] ->
     _index r ∉ D ->
     value (for_each (check_record w tub_path D minb maxb) recs []) = Ok first ->
     _index r ∉ map problem_index first ->
     exists probs q,
       value (find_problems w tub_path D minb maxb maxz recs) = Ok probs
       /\ (_index r, q, ZeroAngleRun) ∈ probs)
  /\ (forall idx r probs,
        recs !! idx = Some r ->
        cam_image_array r = None \/ cam_image_array r = Some [] ->
        value (flag_position w tub_path D recs probs idx) = Ok probs)
  /\ (F64.gtb (pre_avg recs sequence) F64.c0_1 = true
      \/ F64.gtb (post_avg recs sequence) F64.c0_1 = true ->
      forall probs,
        check_sequence w tub_path D maxz recs probs sequence = (Ok probs, [])).
Proof.
  intros Hseq Hlen. split; [|split].
  - intros Hpre Hpost idx r f first Hidx Hl Hf Hne HD Hfirst Hnot.
    rewrite (for_each_value _ (record_step w tub_path D minb maxb)) in Hfirst
      by (intros; apply check_record_value).
    injection Hfirst as <-.
    set (first := fold_left (record_step w tub_path D minb maxb) recs []) in *.
    assert (Hr : r ∈ recs) by (eapply list_elem_of_lookup_2; eauto).
    destruct (resolve w tub_path f) as [p|] eqn:Hp.
    2:{ exfalso. apply Hnot. apply list_elem_of_fmap.
        exists (_index r, path_join tub_path f, MissingFile). split; [reflexivity|].
        apply first_pass_keeps with (r := r); auto.
        unfold record_verdict. rewrite Hf. destruct f; [contradiction|].
        rewrite Hp. apply list_elem_of_singleton. reflexivity. }
    exists (problems_of w tub_path D minb maxb maxz recs).
    rewrite find_problems_value.
    apply list_elem_of_split in Hseq as (s1 & s2 & Hsplit).
    unfold problems_of. fold first. rewrite Hsplit, fold_left_app. simpl.
    set (probs1 := fold_left (sequence_step w tub_path D maxz recs) s1 first).
    assert (HI : first_or_zero first probs1).
    { apply (fold_left_invariant (first_or_zero first)).
      - intros. now apply sequence_step_first_or_zero.
      - intros e He. now left. }
    assert (Hflag : flagged_run maxz recs sequence = true).
    { unfold flagged_run. apply andb_true_intro. split.
      - now apply Z.ltb_lt.
      - rewrite (F64Facts.leb_not_gtb _ _ Hpre), (F64Facts.leb_not_gtb _ _ Hpost).
        reflexivity. }
    destruct (fold_flag_step_flags w tub_path D first recs sequence idx r f p
                Hidx Hl HD Hnot Hf Hne Hp probs1 HI) as [q Hq].
    exists q. split; [reflexivity|].
    apply (fold_left_invariant (fun l => _ ∈ l)).
    + intros. now apply sequence_step_grows.
    + unfold sequence_step at 1. rewrite Hflag. exact Hq.
  - intros idx r probs Hl Hnone. unfold flag_position. rewrite Hl.
    destruct (_ && _); [|reflexivity].
    destruct Hnone as [-> | ->]; reflexivity.
  - intros Havg probs. unfold check_sequence.
    apply Z.ltb_lt in Hlen. rewrite Hlen.
    assert (Hor : F64.gtb (pre_avg recs sequence) F64.c0_1
                  || F64.gtb (post_avg recs sequence) F64.c0_1 = true)
      by (apply orb_true_iff; exact Havg).
    now rewrite Hor.
Qed.

(** C3, amended, on three straight frames, alone and right after a
    turn. *)
Lemma zero_angle_run_flagged_or_suppressed_witness :
  (exists probs q,
      value (find_problems Examples.bright_world Examples.tub_path ∅
               (F64.of_Z 20) (F64.of_Z 250) 2 Examples.straight_run) = Ok probs
      /\ (1, q, ZeroAngleRun) ∈ probs)
  /\ check_sequence Examples.bright_world Examples.tub_path ∅ 2
       Examples.run_after_turn [] [1; 2; 3]%nat
     = (Ok [], []).
Proof.
  split.
  - assert (Hseq : [0; 1; 2]%nat ∈ get_zero_angle_sequences Examples.straight_run)
      by (vm_compute; left).
    assert (Hlen : 2 < Z.of_nat (length [0; 1; 2]%nat)) by (simpl; lia).
    destruct (zero_angle_run_flagged_or_suppressed Examples.bright_world
                Examples.tub_path ∅ (F64.of_Z 20) (F64.of_Z 250) 2
                Examples.straight_run [0; 1; 2]%nat Hseq Hlen) as (Hflag & _ & _).
    apply (Hflag eq_refl eq_refl 1%nat (Examples.frame 1 Examples.f0_02)
             (lit "frame.jpg") []).
    + right; left.
    + reflexivity.
    + reflexivity.
    + discriminate.
    + apply not_elem_of_empty.
    + vm_compute. reflexivity.
    + simpl. apply not_elem_of_nil.
  - assert (Hseq : [1; 2; 3]%nat ∈ get_zero_angle_sequences Examples.run_after_turn)
      by (vm_compute; left).
    assert (Hlen : 2 < Z.of_nat (length [1; 2; 3]%nat)) by (simpl; lia).
    destruct (zero_angle_run_flagged_or_suppressed Examples.bright_world
                Examples.tub_path ∅ (F64.of_Z 20) (F64.of_Z 250) 2
                Examples.run_after_turn [1; 2; 3]%nat Hseq Hlen) as (_ & _ & Hskip).
    apply Hskip. left. vm_compute. reflexivity.
Defined.

(** C4 as the specification states it fails: two catalog files holding
    the records 0 and 1, enumerated with the second one first, are loaded
    as the records 1, 0; enumerated the other way round they are loaded
    in ascending order. *)
Lemma load_keeps_enumeration_order :
  let first := [Parsed (Examples.frame 0 Examples.f0_5)] in
  let second := [Parsed (Examples.frame 1 Examples.f0_5)] in
  map _index (read_catalogs [second; first]) = [1; 0]
  /\ ~ Sorted Z.le (map _index (read_catalogs [second; first]))
  /\ Sorted Z.le (map _index (read_catalogs [first; second])).
Proof.
  simpl. split; [reflexivity|]. split.
  - intros H. inversion H as [|? ? _ Hd]; subst.
    inversion Hd as [|? ? Hle]; subst. unfold read_catalogs in *. simpl in *. lia.
  - repeat constructor. unfold read_catalogs. simpl. lia.
Qed.

(** C4, amended.  The record list is the concatenation, in the order of
    enumeration, of the records of each catalog file in the order of its
    lines, the lines that do not parse being dropped; no sorting takes
    place, so the list is ascending in [_index] exactly when that
    concatenation is. *)
Theorem load_concatenates_in_enumeration_order (files : list (list catalog_line)) :
  read_catalogs files = concat (map parsed_records files)
  /\ (Sorted Z.le (map _index (read_catalogs files))
      <-> Sorted Z.le (map _index (concat (map parsed_records files)))).
Proof.
  assert (H : read_catalogs files = concat (map parsed_records files))
    by apply (read_catalogs_from [] files).
  split; [exact H|]. now rewrite H.
Qed.

(** C5 as the specification states it fails: in a world where the image
    of a record exists and verifies and [cv2] cannot decode it, the entry
    added for the record is a brightness anomaly with value zero, not an
    invalid image. *)
Lemma decode_failure_is_not_invalid_image :
  let w := Examples.undecodable_world in
  let r := Examples.frame 7 Examples.f0_5 in
  let p := lit "data/frame.jpg" in
  path_exists w p = true
  /\ verifies w p = true
  /\ gray_mean w p = None
  /\ value (check_record w Examples.tub_path ∅ (F64.of_Z 20) (F64.of_Z 250) [] r)
     = Ok [(7, p, BrightnessAnomaly F64.zero)]
  /\ BrightnessAnomaly F64.zero <> InvalidImage.
Proof.
  repeat split; try reflexivity. discriminate.
Qed.

(** C5, amended.  For a record that is not deleted, whose image file is
    found and passes [verify], and whose decoding for the brightness
    check fails, the first loop adds exactly one entry, a brightness
    anomaly carrying the value zero. *)
Theorem decode_failure_is_brightness_zero (w : World) (tub_path : text)
    (D : gset Z) (minb maxb : F64.float) (probs : list problem)
    (r : record) (f p : text) :
  _index r ∉ D ->
  cam_image_array r = Some f -> f <> [] ->
  resolve w tub_path f = Some p ->
  verifies w p = true ->
  gray_mean w p = None ->
  value (check_record w tub_path D minb maxb probs r)
  = Ok (probs ++ [(_index r, p, BrightnessAnomaly F64.zero)]).
Proof.
  intros HD Hf Hne Hp Hv Hg.
  rewrite check_record_value. unfold record_step, record_verdict.
  destruct (decide _); [contradiction|].
  rewrite Hf. destruct f; [contradiction|].
  now rewrite Hp, Hv, Hg.
Qed.

(** C5, amended, on a frame that verifies and does not decode. *)
Lemma decode_failure_is_brightness_zero_witness :
  value (check_record Examples.undecodable_world Examples.tub_path ∅
           (F64.of_Z 20) (F64.of_Z 250) [] (Examples.frame 7 Examples.f0_5))
  = Ok ([] ++ [(7, lit "data/frame.jpg", BrightnessAnomaly F64.zero)]).
Proof.
  apply (decode_failure_is_brightness_zero Examples.undecodable_world
           Examples.tub_path ∅ (F64.of_Z 20) (F64.of_Z 250) []
           (Examples.frame 7 Examples.f0_5) (lit "frame.jpg")
           (lit "data/frame.jpg")).
  - apply not_elem_of_empty.
  - reflexivity.
  - discriminate.
  - reflexivity.
  - reflexivity.
  - reflexivity.
Defined.

(** C6.  For a record that is not deleted and whose image is found,
    verifies and decodes to the mean [b], with [min_brightness] at most
    [max_brightness]: when [b] is [min_brightness] or [max_brightness]
    itself the loop adds nothing and [check_brightness] answers
    [(True, b)]; when [b] is strictly below [min_brightness] or strictly
    above [max_brightness] the loop adds one brightness entry that
    carries [b]. *)
Theorem brightness_bounds_inclusive (w : World) (tub_path : text)
    (D : gset Z) (minb maxb b : F64.float) (probs : list problem)
    (r : record) (f p : text) :
  _index r ∉ D ->
  cam_image_array r = Some f -> f <> [] ->
  resolve w tub_path f = Some p ->
  verifies w p = true ->
  gray_mean w p = Some b ->
  F64.leb minb maxb = true ->
  (b = minb \/ b = maxb ->
     value (check_brightness w (Some p) minb maxb) = Ok (true, b)
     /\ value (check_record w tub_path D minb maxb probs r) = Ok probs)
  /\ (F64.ltb b minb = true \/ F64.gtb b maxb = true ->
       value (check_brightness w (Some p) minb maxb) = Ok (false, b)
       /\ value (check_record w tub_path D minb maxb probs r)
          = Ok (probs ++ [(_index r, p, BrightnessAnomaly b)])).
Proof.
  intros HD Hf Hne Hp Hv Hg Hle.
  rewrite check_record_value. unfold record_step, record_verdict.
  destruct (decide _); [contradiction|].
  rewrite Hf. destruct f; [contradiction|].
  rewrite Hp, Hv, Hg.
  unfold check_brightness, cv2_gray_mean, bind, ret. simpl. rewrite Hg.
  split.
  - intros Hb.
    assert (Hin : F64.ltb b minb || F64.gtb b maxb = false).
    { apply orb_false_intro; destruct Hb as [-> | ->].
      - apply F64Facts.ltb_irrefl.
      - apply (F64Facts.leb_not_gtb minb maxb Hle).
      - apply (F64Facts.leb_not_gtb minb maxb Hle).
      - apply F64Facts.ltb_irrefl. }
    rewrite Hin. simpl. now rewrite app_nil_r.
  - intros Hb.
    assert (Hout : F64.ltb b minb || F64.gtb b maxb = true).
    { apply orb_true_iff. exact Hb. }
    rewrite Hout. simpl. now split.
Qed.

(** C6 with the bounds 20 and 250 at the means 20, 250, 19 and 251. *)
Lemma brightness_bounds_inclusive_witness :
  (value (check_brightness (Examples.world_of_brightness (F64.of_Z 20))
            (Some (lit "data/frame.jpg")) (F64.of_Z 20) (F64.of_Z 250))
   = Ok (true, F64.of_Z 20)
   /\ value (check_record (Examples.world_of_brightness (F64.of_Z 20))
               Examples.tub_path ∅ (F64.of_Z 20) (F64.of_Z 250) []
               (Examples.frame 7 Examples.f0_5))
      = Ok [])
  /\ (value (check_brightness (Examples.world_of_brightness (F64.of_Z 250))
               (Some (lit "data/frame.jpg")) (F64.of_Z 20) (F64.of_Z 250))
      = Ok (true, F64.of_Z 250)
      /\ value (check_record (Examples.world_of_brightness (F64.of_Z 250))
                  Examples.tub_path ∅ (F64.of_Z 20) (F64.of_Z 250) []
                  (Examples.frame 7 Examples.f0_5))
         = Ok [])
  /\ (value (check_brightness (Examples.world_of_brightness (F64.of_Z 19))
               (Some (lit "data/frame.jpg")) (F64.of_Z 20) (F64.of_Z 250))
      = Ok (false, F64.of_Z 19)
      /\ value (check_record (Examples.world_of_brightness (F64.of_Z 19))
                  Examples.tub_path ∅ (F64.of_Z 20) (F64.of_Z 250) []
                  (Examples.frame 7 Examples.f0_5))
         = Ok ([] ++ [(7, lit "data/frame.jpg", BrightnessAnomaly (F64.of_Z 19))]))
  /\ (value (check_brightness (Examples.world_of_brightness (F64.of_Z 251))
               (Some (lit "data/frame.jpg")) (F64.of_Z 20) (F64.of_Z 250))
      = Ok (false, F64.of_Z 251)
      /\ value (check_record (Examples.world_of_brightness (F64.of_Z 251))
                  Examples.tub_path ∅ (F64.of_Z 20) (F64.of_Z 250) []
                  (Examples.frame 7 Examples.f0_5))
         = Ok ([] ++ [(7, lit "data/frame.jpg", BrightnessAnomaly (F64.of_Z 251))])).
Proof.
  assert (Hne : lit "frame.jpg" <> []) by discriminate.
  assert (Hle : F64.leb (F64.of_Z 20) (F64.of_Z 250) = true)
    by (vm_compute; reflexivity).
  pose proof (fun b =>
    brightness_bounds_inclusive (Examples.world_of_brightness b)
      Examples.tub_path ∅ (F64.of_Z 20) (F64.of_Z 250) b []
      (Examples.frame 7 Examples.f0_5) (lit "frame.jpg")
      (lit "data/frame.jpg")
      (not_elem_of_empty 7) eq_refl Hne eq_refl eq_refl eq_refl Hle) as H.
  split; [|split; [|split]].
  - apply (proj1 (H (F64.of_Z 20))). left. reflexivity.
  - apply (proj1 (H (F64.of_Z 250))). right. reflexivity.
  - apply (proj2 (H (F64.of_Z 19))). left. vm_compute. reflexivity.
  - apply (proj2 (H (F64.of_Z 251))). right. vm_compute. reflexivity.
Defined.

(** C7.  Two runs with [remove] in a row, over the same images and with
    the same thresholds: the tub after the second run is the tub after
    the first, so the deletion index read from its manifest is the
    same. *)
Theorem audit_remove_idempotent (w : World) (tub_path : text) (tub : Tub)
    (maxb minb : F64.float) (maxz : Z) :
  let tub1 := tub_after tub (clean_tub_data w tub_path tub true maxb minb maxz) in
  let tub2 := tub_after tub1 (clean_tub_data w tub_path tub1 true maxb minb maxz) in
  (manifest tub2 ≫= read_deleted) = (manifest tub1 ≫= read_deleted)
  /\ tub2 = tub1.
Proof.
  intros tub1 tub2.
  assert (H : tub2 = tub1) by apply rerun_fixed.
  split; [now rewrite H|exact H].
Qed.

(** C7 on three straight frames: the first run flags all of them and
    writes their indexes; the second run reads them back and writes
    nothing. *)
Example rerun_after_commit :
  let tub := Examples.tub_of [Examples.straight_run] (Examples.manifest_of "") in
  let run t := clean_tub_data Examples.bright_world Examples.tub_path t true
                 (F64.of_Z 250) (F64.of_Z 20) 2 in
  manifest (tub_after tub (run tub)) = Some (Examples.manifest_of "0, 1, 2")
  /\ trace (run (tub_after tub (run tub))) = [].
Proof. split; vm_compute; reflexivity. Qed.

(** C8.  When the root of the store does not exist, or no catalog file is
    found, or the manifest is absent, the run ends as aborted, with the
    cause first met and no report; its trace is empty, so that no image
    was probed and nothing was written; and the tub is as it was. *)
Theorem fatal_store_error_aborts (w : World) (tub_path : text) (tub : Tub)
    (remove : bool) (maxb minb : F64.float) (maxz : Z) :
  root_exists tub = false \/ catalog_files tub = [] \/ manifest tub = None ->
  clean_tub_data w tub_path tub remove maxb minb maxz
  = (Ok (Aborted (abort_cause tub)), [])
  /\ tub_after tub (clean_tub_data w tub_path tub remove maxb minb maxz) = tub.
Proof.
  intros H.
  assert (Hrun : clean_tub_data w tub_path tub remove maxb minb maxz
                 = (Ok (Aborted (abort_cause tub)), [])).
  { unfold clean_tub_data, abort_cause.
    destruct (root_exists tub); simpl; [|reflexivity].
    destruct (catalog_files tub); [reflexivity|].
    destruct (manifest tub); [|reflexivity].
    destruct H as [H|[H|H]]; discriminate. }
  split; [exact Hrun|]. now rewrite Hrun.
Qed.

(** C8 on a tub without catalog files. *)
Lemma fatal_store_error_aborts_witness :
  let tub := {| root_exists := true; catalog_files := [];
                manifest_file := Some (Examples.manifest_of "");
                manifest_writable := true |} in
  clean_tub_data Examples.bright_world Examples.tub_path tub
    true (F64.of_Z 250) (F64.of_Z 20) 2
  = (Ok (Aborted CatalogMissing), [])
  /\ tub_after tub
       (clean_tub_data Examples.bright_world Examples.tub_path tub
          true (F64.of_Z 250) (F64.of_Z 20) 2)
     = tub.
Proof.
  intros tub.
  apply (fatal_store_error_aborts Examples.bright_world Examples.tub_path tub
           true (F64.of_Z 250) (F64.of_Z 20) 2).
  right; left. reflexivity.
Defined.



(** C10.  A completed run whose report lists no problem writes no file,
    whatever [remove] is: no event of its trace is a write, and the tub,
    manifest included, is as it was. *)
Theorem no_problem_no_write (w : World) (tub_path : text) (tub : Tub)
    (remove : bool) (maxb minb : F64.float) (maxz : Z) (rep : Report) :
  value (clean_tub_data w tub_path tub remove maxb minb maxz) = Ok (Completed rep) ->
  problem_images rep = [] ->
  Forall is_probe (trace (clean_tub_data w tub_path tub remove maxb minb maxz))
  /\ tub_after tub (clean_tub_data w tub_path tub remove maxb minb maxz) = tub.
Proof.
  intros Hv Hnil.
  destruct (completed_report _ _ _ _ _ _ _ _ Hv) as (c & D & Hr & ->).
  simpl in Hnil.
  assert (Hp : Forall is_probe
                 (trace (clean_tub_data w tub_path tub remove maxb minb maxz))).
  { rewrite (clean_tub_data_readable w tub_path tub remove maxb minb maxz c D Hr).
    rewrite Hnil. apply find_problems_probes. }
  split; [exact Hp|]. now apply tub_after_probes.
Qed.

(** C10 on three straight frames under a threshold of five. *)
Lemma no_problem_no_write_witness :
  Forall is_probe
    (trace (clean_tub_data Examples.bright_world Examples.tub_path
              (Examples.tub_of [Examples.straight_run] (Examples.manifest_of "1"))
              true (F64.of_Z 250) (F64.of_Z 20) 5))
  /\ tub_after (Examples.tub_of [Examples.straight_run] (Examples.manifest_of "1"))
       (clean_tub_data Examples.bright_world Examples.tub_path
          (Examples.tub_of [Examples.straight_run] (Examples.manifest_of "1"))
          true (F64.of_Z 250) (F64.of_Z 20) 5)
     = Examples.tub_of [Examples.straight_run] (Examples.manifest_of "1").
Proof.
  apply (no_problem_no_write Examples.bright_world Examples.tub_path
           (Examples.tub_of [Examples.straight_run] (Examples.manifest_of "1"))
           true (F64.of_Z 250) (F64.of_Z 20) 5
           {| deleted_count := 1; total_records := 3; problem_images := [] |}).
  - vm_compute. reflexivity.
  - reflexivity.
Defined.

(** * Lemmas for the further properties *)

Module SequencesFacts.
Import Text Manifest Effects Audit Views RunViews.

Lemma zero_sequences_from_pending records : forall index cur acc,
  zero_sequences_from records index cur acc
  = acc ++ pending_sequences records index cur.
Proof.
  induction records as [|r rs IH]; intros index cur acc; simpl.
  - destruct cur; [now rewrite app_nil_r|reflexivity].
  - destruct (near_zero r); [apply IH|].
    destruct cur as [|c cur]; [apply IH|].
    rewrite IH, <- app_assoc. reflexivity.
Qed.

(** The positions of the near-zero records among [records], counted from
    [index]. *)
Lemma concat_pending records : forall pre cur,
  concat (pending_sequences records (length pre) cur)
  = cur ++ List.filter (near_zero_at (pre ++ records))
             (seq (length pre) (length records)).
Proof.
  induction records as [|r rs IH]; intros pre cur; simpl.
  - destruct cur; simpl; now rewrite ?app_nil_r.
  - assert (Hat : near_zero_at (pre ++ r :: rs) (length pre) = near_zero r).
    { unfold near_zero_at. now rewrite list_lookup_middle. }
    rewrite Hat.
    assert (Hpre : pre ++ r :: rs = (pre ++ [r]) ++ rs)
      by now rewrite <- app_assoc.
    assert (Hlen : S (length pre) = length (pre ++ [r]))
      by (rewrite length_app; simpl; lia).
    rewrite Hpre, Hlen.
    destruct (near_zero r).
    + rewrite IH, <- app_assoc. reflexivity.
    + destruct cur as [|c cur]; simpl; now rewrite IH.
Qed.

Lemma near_zero_at_app_l pre rest i :
  (i < length pre)%nat -> near_zero_at (pre ++ rest) i = near_zero_at pre i.
Proof. intros H. unfold near_zero_at. now rewrite lookup_app_l. Qed.

Lemma near_zero_at_end pre : near_zero_at pre (length pre) = false.
Proof.
  unfold near_zero_at. now rewrite (proj2 (lookup_ge_None pre (length pre))).
Qed.

Lemma near_zero_at_middle pre r rest :
  near_zero_at (pre ++ r :: rest) (length pre) = near_zero r.
Proof. unfold near_zero_at. now rewrite list_lookup_middle. Qed.

Lemma pending_maximal records : forall pre cur,
  open_block pre cur ->
  Forall (maximal_block (pre ++ records))
    (pending_sequences records (length pre) cur).
Proof.
  induction records as [|r rs IH]; intros pre cur (a & n & -> & Hlen & Hleft);
    simpl.
  - destruct n as [|n]; simpl; [constructor|].
    constructor; [|constructor].
    exists a, n. rewrite app_nil_r. repeat split; [exact Hleft|].
    rewrite Hlen. apply near_zero_at_end.
  - assert (Hpre : pre ++ r :: rs = (pre ++ [r]) ++ rs)
      by now rewrite <- app_assoc.
    assert (Hlen' : S (length pre) = length (pre ++ [r]))
      by (rewrite length_app; simpl; lia).
    destruct (near_zero r) eqn:Hr.
    + rewrite Hpre, Hlen'. apply IH.
      exists a, (S n). rewrite seq_S, Hlen. repeat split.
      * lia.
      * intros a' Ha. rewrite near_zero_at_app_l by lia. now apply Hleft.
    + assert (Hrest : Forall (maximal_block (pre ++ r :: rs))
                        (pending_sequences rs (S (length pre)) [])).
      { rewrite Hpre, Hlen'. apply IH.
        exists (length (pre ++ [r])), 0%nat. repeat split; [simpl; lia|].
        intros a' Ha. rewrite <- Hlen' in Ha. injection Ha as <-.
        rewrite near_zero_at_middle. exact Hr. }
      destruct n as [|n]; simpl; [exact Hrest|].
      constructor; [|exact Hrest].
      exists a, n. repeat split.
      * intros a' Ha. rewrite near_zero_at_app_l by lia. now apply Hleft.
      * rewrite Hlen, near_zero_at_middle. exact Hr.
Qed.

(** The angles of a window within the list are those of a slice of
    it. *)
Lemma window_angles_slice (recs : list record) : forall n a,
  (a + n <= length recs)%nat ->
  window_angles recs (seq a n)
  = omap (fun r => F64.abs <$> user_angle r) (take n (drop a recs)).
Proof.
  unfold window_angles.
  induction n as [|n IH]; intros a Ha; [reflexivity|].
  destruct (recs !! a) as [r|] eqn:Hr.
  2:{ apply lookup_ge_None in Hr. lia. }
  rewrite (drop_S _ _ _ Hr). cbn [seq take omap list_omap]. rewrite Hr.
  specialize (IH (S a) ltac:(lia)). cbn [omap] in IH. rewrite IH.
  reflexivity.
Qed.

End SequencesFacts.

Module ReportFacts.
Import Text Manifest Effects EffectsFacts Audit Views AuditFacts AuditValues.
Import RunFacts DeletedFacts SequenceFacts ReportViews.

Section Report.
Variables (w : World) (tub_path : text) (D : gset Z).
Variables (minb maxb : F64.float).

Lemma resolve_exists f p : resolve w tub_path f = Some p -> path_exists w p = true.
Proof.
  unfold resolve.
  destruct (path_exists w (path_join tub_path f)) eqn:H1.
  - now intros [= <-].
  - destruct (path_exists w (path_join (path_join tub_path (lit "images")) f))
      eqn:H2; [|intros ?; discriminate].
    now intros [= <-].
Qed.

(** At most one entry per record, carrying its index. *)
Lemma record_verdict_shape r :
  record_verdict w tub_path minb maxb r = []
  \/ exists p reason, record_verdict w tub_path minb maxb r = [(_index r, p, reason)]
                      /\ reason <> ZeroAngleRun /\ has_image r.
Proof.
  unfold record_verdict, has_image.
  destruct (cam_image_array r) as [[|c f]|]; try (now left).
  assert (Himg : exists f0, Some (c :: f) = Some f0 /\ f0 <> [])
    by (eexists; split; [reflexivity|discriminate]).
  destruct (resolve w tub_path (c :: f)) as [p|].
  - destruct (verifies w p).
    + destruct (gray_mean w p) as [b|].
      * destruct (_ || _); [|now left].
        right. do 2 eexists. split; [reflexivity|split; [discriminate|exact Himg]].
      * right. do 2 eexists. split; [reflexivity|split; [discriminate|exact Himg]].
    + right. do 2 eexists. split; [reflexivity|split; [discriminate|exact Himg]].
  - right. do 2 eexists. split; [reflexivity|split; [discriminate|exact Himg]].
Qed.

Lemma zero_entry_shape r :
  zero_entry w tub_path r = []
  \/ exists p, zero_entry w tub_path r = [(_index r, p, ZeroAngleRun)]
               /\ has_image r /\ path_exists w p = true
               /\ exists f, cam_image_array r = Some f /\ f <> []
                            /\ resolve w tub_path f = Some p.
Proof.
  unfold zero_entry, has_image.
  destruct (cam_image_array r) as [[|c f]|]; try (now left).
  destruct (resolve w tub_path (c :: f)) as [[|c' p]|] eqn:Hp; try (now left).
  right. exists (c' :: p). repeat split.
  - eexists; split; [reflexivity|discriminate].
  - now apply (resolve_exists (c :: f)).
  - exists (c :: f). repeat split; [discriminate|exact Hp].
Qed.

(** An empty verdict for a record with a resolved image: the image is
    healthy. *)
Lemma empty_verdict_healthy r f p :
  cam_image_array r = Some f -> f <> [] ->
  resolve w tub_path f = Some p ->
  record_verdict w tub_path minb maxb r = [] ->
  healthy w minb maxb p.
Proof.
  intros Hf Hne Hp. unfold record_verdict, healthy. rewrite Hf.
  destruct f; [contradiction|]. rewrite Hp.
  destruct (verifies w p); [|discriminate].
  destruct (gray_mean w p) as [b|]; [|discriminate].
  destruct (_ || _) eqn:Hb; [discriminate|]. intros _.
  repeat split; [now apply (resolve_exists (a :: f))|].
  exists b. now split.
Qed.

Lemma fold_record_step recs : forall acc,
  fold_left (record_step w tub_path D minb maxb) recs acc
  = acc ++ flat_map (first_entry w tub_path D minb maxb) recs.
Proof.
  induction recs as [|r rs IH]; intros acc; simpl; [now rewrite app_nil_r|].
  rewrite IH. unfold record_step, first_entry.
  destruct (decide _); [reflexivity|now rewrite <- app_assoc].
Qed.

Lemma first_entry_in recs r e :
  r ∈ recs -> e ∈ first_entry w tub_path D minb maxb r ->
  e ∈ flat_map (first_entry w tub_path D minb maxb) recs.
Proof.
  intros Hr He. apply list_elem_of_In, in_flat_map.
  exists r. split; now apply list_elem_of_In.
Qed.

Lemma flag_step_shape recs probs idx :
  second_loop_shape w tub_path D minb maxb recs probs ->
  second_loop_shape w tub_path D minb maxb recs (flag_step w tub_path D recs probs idx).
Proof.
  intros Hshape. unfold flag_step.
  destruct (recs !! idx) as [r|] eqn:Hl; [|exact Hshape].
  destruct (bool_decide (_index r ∉ D)) eqn:HD; [|exact Hshape].
  apply bool_decide_eq_true in HD. simpl.
  unfold already_flagged. destruct (bool_decide _) eqn:Hflag; [exact Hshape|].
  apply bool_decide_eq_false in Hflag. simpl.
  destruct (zero_entry_shape r) as [->|(p & Hz & _ & _ & f & Hf & Hne & Hp)];
    [now rewrite app_nil_r|].
  rewrite Hz. destruct Hshape as (zeros & -> & Hok & Hnd & Hnew).
  rewrite map_app, elem_of_app in Hflag.
  assert (Hr : r ∈ recs) by (eapply list_elem_of_lookup_2; eauto).
  exists (zeros ++ [(_index r, p, ZeroAngleRun)]).
  split; [now rewrite <- app_assoc|]. split; [|split].
  - apply Forall_app. split; [exact Hok|]. constructor; [|constructor].
    exists r, f, p. repeat split; auto.
    destruct (record_verdict_shape r) as [Hv|(q & reason & Hv & _)]; [exact Hv|].
    exfalso. apply Hflag. left. apply list_elem_of_fmap.
    exists (_index r, q, reason). split; [reflexivity|].
    apply (first_entry_in recs r); [exact Hr|].
    unfold first_entry. destruct (decide _); [contradiction|].
    rewrite Hv. left.
  - rewrite map_app. simpl. apply NoDup_app. repeat split; [exact Hnd| |].
    + intros i Hi ->%list_elem_of_singleton. apply Hflag. now right.
    + apply NoDup_singleton.
  - intros i. rewrite map_app, elem_of_app. intros [Hi|Hi]; [now apply Hnew|].
    apply list_elem_of_singleton in Hi. subst i. intros Hin. apply Hflag.
    now left.
Qed.

Lemma problems_of_shape maxz recs :
  second_loop_shape w tub_path D minb maxb recs
    (problems_of w tub_path D minb maxb maxz recs).
Proof.
  unfold problems_of.
  apply (fold_left_invariant (second_loop_shape w tub_path D minb maxb recs)).
  - intros probs sequence _ Hshape. unfold sequence_step.
    destruct (flagged_run _ _ _); [|exact Hshape].
    apply (fold_left_invariant (second_loop_shape w tub_path D minb maxb recs));
      [|exact Hshape].
    intros. now apply flag_step_shape.
  - rewrite fold_record_step. exists []. simpl.
    split; [now rewrite app_nil_r|]. split; [constructor|].
    split; [constructor|]. intros i Hi. now apply elem_of_nil in Hi.
Qed.

(** Records with pairwise different indexes get first entries with
    pairwise different indexes. *)
Lemma first_entries_NoDup recs :
  NoDup (map _index recs) ->
  NoDup (map problem_index (flat_map (first_entry w tub_path D minb maxb) recs)).
Proof.
  induction recs as [|r rs IH]; simpl; [constructor|].
  intros Hnd. apply NoDup_cons in Hnd as [Hr Hnd].
  rewrite map_app. apply NoDup_app. repeat split; [| |now apply IH].
  - unfold first_entry. destruct (decide _); [constructor|].
    destruct (record_verdict_shape r) as [->|(p & reason & -> & _)];
      [constructor|apply NoDup_singleton].
  - intros i Hi Hin. apply Hr.
    assert (i = _index r) as ->.
    { apply list_elem_of_fmap in Hi as (e & -> & He).
      unfold first_entry in He. destruct (decide _); [now apply elem_of_nil in He|].
      now apply (record_verdict_index w tub_path minb maxb r). }
    apply list_elem_of_fmap in Hin as (e & He & Hin).
    apply list_elem_of_In, in_flat_map in Hin as (r' & Hr' & Hin).
    apply list_elem_of_In in Hr', Hin.
    apply list_elem_of_fmap. exists r'. split; [|exact Hr'].
    rewrite He. unfold first_entry in Hin.
    destruct (decide _); [now apply elem_of_nil in Hin|].
    now apply (record_verdict_index w tub_path minb maxb r').
Qed.

Lemma first_entries_shape recs e :
  e ∈ flat_map (first_entry w tub_path D minb maxb) recs ->
  exists r, r ∈ recs /\ problem_index e = _index r /\ has_image r
            /\ problem_reason e <> ZeroAngleRun.
Proof.
  intros Hin. apply list_elem_of_In, in_flat_map in Hin as (r & Hr & He).
  apply list_elem_of_In in Hr, He. exists r.
  unfold first_entry in He.
  destruct (decide (_index r ∈ D)); [inversion He|].
  destruct (record_verdict_shape r) as [Hv|(p & reason & Hv & Hreason & Himg)];
    rewrite Hv in He; [inversion He|].
  apply list_elem_of_singleton in He. subst e. auto.
Qed.

Lemma zero_ok_shape recs e :
  zero_ok w tub_path D minb maxb recs e ->
  (exists r, r ∈ recs /\ problem_index e = _index r /\ has_image r)
  /\ problem_reason e = ZeroAngleRun
  /\ healthy w minb maxb (snd (fst e)).
Proof.
  intros (r & f & p & Hr & -> & Hf & Hne & Hres & _ & Hv).
  split; [exists r; repeat split; auto; now exists f|].
  split; [reflexivity|]. simpl.
  now apply (empty_verdict_healthy r f p).
Qed.

End Report.

End ReportFacts.

Module ManifestMoreFacts.
Import Text Manifest Views TextFacts RegexFacts IntFacts DumpsFacts PatchFacts.

Local Opaque field_open field_marker.

(** Patching a patched text: the second patch decides. *)
Lemma re_sub_re_sub g repl' s :
  clean g ->
  re_sub repl' (re_sub (field_open ++ g ++ [rbracket]) s) = re_sub repl' s.
Proof.
  intros Hg. set (repl := field_open ++ g ++ [rbracket]).
  remember (length s) as n eqn:Hn. revert s Hn.
  induction n as [n IH] using lt_wf_ind. intros s ->.
  rewrite (re_sub_step repl s), (re_sub_step repl' s).
  destruct (re_search s) as [[[pre g0] rest]|] eqn:Hs.
  - assert (Hform : pre ++ repl ++ re_sub repl rest
                    = pre ++ field_open ++ g ++ rbracket :: re_sub repl rest).
    { unfold repl. now rewrite <- !app_assoc. }
    rewrite Hform, re_sub_step.
    rewrite (re_search_stable s pre g0 rest g (re_sub repl rest) Hs Hg).
    now rewrite (IH (length rest) (re_search_length _ _ _ _ Hs) rest eq_refl).
  - now rewrite re_sub_step, Hs.
Qed.

Lemma contains_true p s :
  contains p s = true -> exists a b, s = a ++ p ++ b.
Proof.
  induction s as [|c s IH]; rewrite contains_unfold.
  - destruct (strip_prefix p []) as [r|] eqn:Hp; [|discriminate].
    apply strip_prefix_Some in Hp. intros _. exists [], r. exact Hp.
  - destruct (strip_prefix p (c :: s)) as [r|] eqn:Hp.
    + apply strip_prefix_Some in Hp. intros _. exists [], r. exact Hp.
    + intros (a & b & ->)%IH. exists (c :: a), b. reflexivity.
Qed.

(** A line of a text is a piece of it. *)
Lemma line_within s : forall l,
  l ∈ split newline s -> exists a b, s = a ++ l ++ b.
Proof.
  remember (length s) as n eqn:Hn. revert s Hn.
  induction n as [n IH] using lt_wf_ind. intros s -> l.
  destruct (first_line s) as [Hs|(l0 & s' & -> & Hl0)].
  - rewrite (split_newline_last s Hs). intros ->%list_elem_of_singleton.
    exists [], []. now rewrite app_nil_r.
  - rewrite (split_newline_line l0 s' Hl0). intros [->|Hin]%elem_of_cons.
    + exists [], (newline :: s'). reflexivity.
    + destruct (IH (length s')) with (s := s') (l := l) as (a & b & ->);
        [rewrite length_app; simpl; lia|reflexivity|exact Hin|].
      exists (l0 ++ newline :: a), b. now rewrite <- app_assoc.
Qed.

Lemma line_without_marker s l :
  contains field_marker s = false -> l ∈ split newline s ->
  contains field_marker l = false.
Proof.
  intros Hs Hl. destruct (contains field_marker l) eqn:Hc; [|reflexivity].
  apply contains_true in Hc as (a' & b' & ->).
  apply line_within in Hl as (a & b & ->).
  rewrite <- Hs. symmetry.
  replace (a ++ (a' ++ field_marker ++ b') ++ b)
    with ((a ++ a') ++ field_marker ++ (b' ++ b))
    by now rewrite <- !app_assoc.
  apply contains_app.
Qed.

Lemma first_field_line_None lines :
  Forall (fun l => contains field_marker l = false) lines ->
  first_field_line lines = None.
Proof.
  induction 1 as [|l lines Hl _ IH]; simpl; [reflexivity|]. now rewrite Hl.
Qed.

Lemma split_nonempty sep s : split sep s <> [].
Proof.
  destruct s as [|c s]; simpl; [discriminate|].
  destruct (Ascii.eqb c sep); [discriminate|].
  destruct (split sep s); discriminate.
Qed.

(** A text that ends with the separator ends with an empty piece. *)
Lemma split_trailing sep s : split sep (s ++ [sep]) = split sep s ++ [[]].
Proof.
  induction s as [|c s IH]; simpl.
  - now rewrite Ascii.eqb_refl.
  - rewrite IH. destruct (Ascii.eqb c sep); [reflexivity|].
    pose proof (split_nonempty sep s) as Hn.
    destruct (split sep s); [contradiction|reflexivity].
Qed.

Lemma parse_indexes_trailing_comma g s :
  strip g = s ++ [comma] -> parse_indexes g = None.
Proof.
  intros Hg. unfold parse_indexes. rewrite Hg.
  destruct (s ++ [comma]) as [|c t] eqn:Hs; [now destruct s|].
  rewrite <- Hs, split_trailing.
  assert (Hm : mapM (fun idx => py_int (strip idx)) (split comma s ++ [[]]) = None).
  { apply mapM_None_2, Exists_app. right. now constructor. }
  now rewrite Hm.
Qed.

End ManifestMoreFacts.

Module ServoFacts.
Import Servo.

Lemma angles_from_all (P : Z -> bool) lo n :
  forallb P (angles_from lo n) = true ->
  forall z, lo <= z < lo + Z.of_nat n -> P z = true.
Proof.
  intros H z Hz. rewrite forallb_forall in H. apply H.
  unfold angles_from. apply in_map_iff. exists (Z.to_nat (z - lo)).
  split; [lia|]. apply in_seq. lia.
Qed.

Lemma pulse_of_servo_range angle :
  0 <= angle <= 180 ->
  pulse_of angle = Some (4096 * (angle * 11 + 500) / 20000).
Proof.
  intros Hr.
  pose (P := fun a => match pulse_of a with
                      | Some p => p =? 4096 * (a * 11 + 500) / 20000
                      | None => false
                      end).
  assert (H : P angle = true)
    by (apply (angles_from_all P 0 181); [vm_compute; reflexivity|lia]).
  unfold P in H. destruct (pulse_of angle) as [p|]; [|discriminate].
  apply Z.eqb_eq in H. now subst p.
Qed.

End ServoFacts.

(** * Further properties *)

Import RunViews SequencesFacts ReportViews ReportFacts ManifestMoreFacts.
Import Servo ServoFacts.

(** X1.  The sequences of [get_zero_angle_sequences], one after the
    other, are the positions of the near-zero records in ascending order:
    every such position lies in exactly one sequence and no other
    position lies in any. *)
Theorem zero_sequences_cover (recs : list record) :
  concat (get_zero_angle_sequences recs)
  = List.filter (near_zero_at recs) (seq 0 (length recs)).
Proof.
  unfold get_zero_angle_sequences. rewrite zero_sequences_from_pending.
  apply (concat_pending recs [] []).
Qed.

(** X2.  Every sequence of [get_zero_angle_sequences] is a non-empty
    block of consecutive positions; the record before the block, if any,
    and the record after it, if any, are not near zero. *)
Theorem zero_sequences_maximal (recs : list record) :
  Forall (maximal_block recs) (get_zero_angle_sequences recs).
Proof.
  unfold get_zero_angle_sequences. rewrite zero_sequences_from_pending.
  apply (pending_maximal recs [] []).
  exists 0%nat, 0%nat.
  split; [reflexivity|split; [reflexivity|intros a' Ha; discriminate]].
Qed.

(** X3.  An image name that starts with a slash is looked up as it is,
    whatever the tub path: both probes of [get_image_path] are for the
    name itself. *)
Theorem absolute_image_name_ignores_tub (w : World) (tub_path f : text) :
  let p := "/"%char :: f in
  get_image_path w tub_path p
  = if path_exists w p then (Ok (Some p), [EvExists p])
    else (Ok None, [EvExists p; EvExists p]).
Proof.
  intros p. unfold get_image_path, os_path_exists, bind, ret. simpl.
  fold p. destruct (path_exists w p); reflexivity.
Qed.

(** X4.  The two loops call the outside in order: [verify] only on a file
    that exists, [imread] only on a file that exists and verifies, and
    they write nothing. *)
Theorem checks_run_in_order (w : World) (tub_path : text) (D : gset Z)
    (minb maxb : F64.float) (maxz : Z) (recs : list record) :
  Forall (in_order w) (trace (find_problems w tub_path D minb maxb maxz recs)).
Proof.
  assert (Hpath : forall f, Forall (in_order w) (trace (get_image_path w tub_path f))).
  { intros f. unfold get_image_path, os_path_exists, bind, ret. simpl.
    repeat (destruct (path_exists w _); simpl); repeat constructor. }
  unfold find_problems. apply trace_bind_Forall.
  - apply for_each_trace_Forall. intros probs r. unfold check_record.
    destruct (decide _); [constructor|].
    destruct (cam_image_array r) as [[|c f]|]; try constructor.
    apply trace_bind_Forall; [apply Hpath|].
    intros [p|] Hv; [|constructor].
    rewrite get_image_path_value in Hv. injection Hv as Hv.
    apply resolve_exists in Hv.
    unfold is_valid_image, image_verify, check_brightness, cv2_gray_mean, bind, ret.
    simpl. destruct (verifies w p) eqn:Hver; simpl;
      [|repeat constructor; exact Hv].
    destruct (gray_mean w p) as [b|]; simpl.
    + destruct (_ || _); simpl; repeat constructor; assumption.
    + repeat constructor; assumption.
  - intros probs _. apply for_each_trace_Forall. intros probs' sequence.
    unfold check_sequence. destruct (_ <? _); [|constructor].
    destruct (_ || _); [constructor|].
    apply for_each_trace_Forall. intros probs'' idx. unfold flag_position.
    destruct (recs !! idx) as [r|]; [|constructor].
    destruct (_ && _); [|constructor].
    destruct (cam_image_array r) as [[|c f]|]; try constructor.
    apply trace_bind_Forall; [apply Hpath|].
    intros [[|c' p]|] _; constructor.
Qed.

(** X5.  Without [remove] a run writes nothing, on any tub: its trace
    holds probes only and the tub is as it was. *)
Theorem dry_run_leaves_tub (w : World) (tub_path : text) (tub : Tub)
    (maxb minb : F64.float) (maxz : Z) :
  Forall is_probe (trace (clean_tub_data w tub_path tub false maxb minb maxz))
  /\ tub_after tub (clean_tub_data w tub_path tub false maxb minb maxz) = tub.
Proof.
  assert (H : Forall is_probe
                (trace (clean_tub_data w tub_path tub false maxb minb maxz))).
  { destruct (readable_cases tub) as [(c & D & Hr)|Hn].
    - rewrite (clean_tub_data_readable w tub_path tub false maxb minb maxz c D Hr).
      destruct (problems_of _ _ _ _ _ _ _); apply find_problems_probes.
    - destruct (clean_tub_data_unreadable w tub_path tub false maxb minb maxz Hn)
        as [-> _]. constructor. }
  split; [exact H|now apply tub_after_probes].
Qed.

(** X6.  With a writable manifest the outcome of a run, report included,
    does not depend on [remove]: the dry run lists exactly the problems a
    run with [remove] would record. *)
Theorem report_independent_of_remove (w : World) (tub_path : text) (tub : Tub)
    (maxb minb : F64.float) (maxz : Z) :
  manifest_writable tub = true ->
  value (clean_tub_data w tub_path tub true maxb minb maxz)
  = value (clean_tub_data w tub_path tub false maxb minb maxz).
Proof.
  intros Hw. destruct (readable_cases tub) as [(c & D & Hr)|Hn].
  - rewrite (clean_tub_data_readable w tub_path tub true maxb minb maxz c D Hr).
    rewrite (clean_tub_data_readable w tub_path tub false maxb minb maxz c D Hr).
    rewrite Hw. now destruct (problems_of _ _ _ _ _ _ _).
  - unfold clean_tub_data.
    destruct (root_exists tub) eqn:Hroot; [|reflexivity]. simpl.
    destruct (catalog_files tub) eqn:Hcat; [reflexivity|].
    destruct (manifest tub) as [c|] eqn:Hman; [|reflexivity].
    destruct (read_deleted c) as [D|] eqn:Hread; [|reflexivity].
    exfalso. apply (Hn c D). unfold readable. rewrite Hcat.
    repeat split; congruence.
Qed.

(** X6 on three straight frames. *)
Lemma report_independent_of_remove_witness :
  let tub := Examples.tub_of [Examples.straight_run] (Examples.manifest_of "1") in
  value (clean_tub_data Examples.bright_world Examples.tub_path tub true
           (F64.of_Z 250) (F64.of_Z 20) 2)
  = value (clean_tub_data Examples.bright_world Examples.tub_path tub false
             (F64.of_Z 250) (F64.of_Z 20) 2).
Proof.
  intros tub.
  apply (report_independent_of_remove Examples.bright_world Examples.tub_path tub
           (F64.of_Z 250) (F64.of_Z 20) 2).
  reflexivity.
Defined.

(** X7.  A run never shrinks the deletion index: the index read from the
    manifest after the run contains the index read before it. *)
Theorem deletion_index_never_shrinks (w : World) (tub_path : text) (tub : Tub)
    (remove : bool) (maxb minb : F64.float) (maxz : Z)
    (content : text) (D : gset Z) :
  manifest tub = Some content ->
  read_deleted content = Some D ->
  exists D',
    manifest (tub_after tub (clean_tub_data w tub_path tub remove maxb minb maxz))
      ≫= read_deleted = Some D'
    /\ D ⊆ D'.
Proof.
  intros Hman Hread.
  assert (Hsame : tub_after tub (clean_tub_data w tub_path tub remove maxb minb maxz)
                  = tub ->
                  exists D',
                    manifest (tub_after tub
                                (clean_tub_data w tub_path tub remove maxb minb maxz))
                      ≫= read_deleted = Some D'
                    /\ D ⊆ D').
  { intros ->. exists D. rewrite Hman. simpl. now split. }
  destruct (readable_cases tub) as [(c & D0 & Hr)|Hn].
  2:{ apply Hsame, tub_after_probes.
      destruct (clean_tub_data_unreadable w tub_path tub remove maxb minb maxz Hn)
        as [-> _]. constructor. }
  pose proof Hr as (_ & _ & Hc & HD).
  assert (c = content) by congruence. subst c.
  assert (D0 = D) by congruence. subst D0.
  pose proof (tub_after_readable w tub_path tub remove maxb minb maxz content D Hr)
    as Hafter. simpl in Hafter.
  destruct (problems_of _ _ _ _ _ _ _) as [|p ps]; [now apply Hsame|].
  destruct (remove && manifest_writable tub); [|now apply Hsame].
  rewrite Hafter.
  set (S := D ∪ list_to_set (map problem_index (p :: ps))).
  assert (HS : D ⊆ S) by apply union_subseteq_l.
  clearbody S. rewrite (manifest_patched tub tub content S Hman). simpl.
  destruct (read_deleted_patch_cases content D S Hread) as [->|[-> ->]].
  - now exists S.
  - now exists ∅.
Qed.

(** X7 on three straight frames with the index 1 deleted. *)
Lemma deletion_index_never_shrinks_witness :
  let tub := Examples.tub_of [Examples.straight_run] (Examples.manifest_of "1") in
  exists D',
    manifest (tub_after tub
                (clean_tub_data Examples.bright_world Examples.tub_path tub true
                   (F64.of_Z 250) (F64.of_Z 20) 2))
      ≫= read_deleted = Some D'
    /\ ({[1]} : gset Z) ⊆ D'.
Proof.
  intros tub.
  apply (deletion_index_never_shrinks Examples.bright_world Examples.tub_path tub
           true (F64.of_Z 250) (F64.of_Z 20) 2 (Examples.manifest_of "1") {[1]}).
  - reflexivity.
  - vm_compute. reflexivity.
Defined.

(** X8.  On a tub whose first marker line holds a match of the pattern
    and whose manifest is writable, a completed run with [remove] leaves
    a tub on which a dry run reports no problem, with as many deleted
    indexes as the old index and the recorded problems make together. *)
Theorem rerun_reports_nothing (w : World) (tub_path : text) (tub : Tub)
    (maxb minb : F64.float) (maxz : Z) (content line : text) (D : gset Z)
    (rep : Report) :
  manifest tub = Some content ->
  read_deleted content = Some D ->
  first_field_line (split newline content) = Some line ->
  re_search line <> None ->
  manifest_writable tub = true ->
  value (clean_tub_data w tub_path tub true maxb minb maxz) = Ok (Completed rep) ->
  let tub1 := tub_after tub (clean_tub_data w tub_path tub true maxb minb maxz) in
  value (clean_tub_data w tub_path tub1 false maxb minb maxz)
  = Ok (Completed
          {| deleted_count :=
               size (D ∪ list_to_set (map problem_index (problem_images rep)));
             total_records := total_records rep;
             problem_images := [] |}).
Proof.
  intros Hman Hread Hline Hmatch Hw Hv tub1.
  destruct (completed_report _ _ _ _ _ _ _ _ Hv) as (c & D0 & Hr & ->).
  pose proof Hr as (Hroot & Hcat & Hc & HD).
  assert (c = content) by congruence. subst c.
  assert (D0 = D) by congruence. subst D0. simpl.
  set (recs := read_catalogs (catalog_files tub)).
  set (found := problems_of w tub_path D minb maxb maxz recs).
  set (S := D ∪ list_to_set (map problem_index found)).
  assert (Hmerged : problems_of w tub_path S minb maxb maxz recs = [])
    by apply problems_of_merged.
  pose proof (tub_after_readable w tub_path tub true maxb minb maxz content D Hr)
    as Hafter. fold tub1 recs found in Hafter. simpl in Hafter.
  rewrite Hw in Hafter.
  assert (Hr1 : exists c1, readable tub1 c1 S
                           /\ read_catalogs (catalog_files tub1) = recs).
  { destruct found as [|p ps] eqn:Hfound.
    - exists content. rewrite Hafter. split; [|reflexivity].
      unfold readable. repeat split; auto.
      rewrite Hread. f_equal. unfold S. simpl.
      symmetry. apply (right_id_L ∅ (∪)).
    - exists (patch content S). rewrite Hafter. split; [|reflexivity].
      unfold readable. rewrite (manifest_patched tub tub content _ Hman).
      simpl. repeat split; auto.
      rewrite read_deleted_patch, Hline.
      destruct (re_search line); [reflexivity|contradiction]. }
  destruct Hr1 as (c1 & Hr1 & Hrecs).
  rewrite (clean_tub_data_readable w tub_path tub1 false maxb minb maxz c1 S Hr1).
  now rewrite Hrecs, Hmerged.
Qed.

(** X8 on three straight frames with the index 1 deleted. *)
Lemma rerun_reports_nothing_witness :
  let tub := Examples.tub_of [Examples.straight_run] (Examples.manifest_of "1") in
  let tub1 := tub_after tub
                (clean_tub_data Examples.bright_world Examples.tub_path tub true
                   (F64.of_Z 250) (F64.of_Z 20) 2) in
  value (clean_tub_data Examples.bright_world Examples.tub_path tub1 false
           (F64.of_Z 250) (F64.of_Z 20) 2)
  = Ok (Completed {| deleted_count := 3; total_records := 3;
                     problem_images := [] |}).
Proof.
  intros tub tub1.
  etrans.
  - apply (rerun_reports_nothing Examples.bright_world Examples.tub_path tub
             (F64.of_Z 250) (F64.of_Z 20) 2 (Examples.manifest_of "1")
             (Examples.manifest_of "1") {[1]}
             {| deleted_count := 1; total_records := 3;
                problem_images :=
                  [(0, lit "data/frame.jpg", ZeroAngleRun);
                   (2, lit "data/frame.jpg", ZeroAngleRun)] |}).
    + reflexivity.
    + vm_compute. reflexivity.
    + vm_compute. reflexivity.
    + vm_compute. discriminate.
    + reflexivity.
    + vm_compute. reflexivity.
  - vm_compute. reflexivity.
Defined.

(** X9.  A run writes the manifest at most once, after every probe, and
    only when [remove] is set and the manifest is writable. *)
Theorem at_most_one_write (w : World) (tub_path : text) (tub : Tub)
    (remove : bool) (maxb minb : F64.float) (maxz : Z) :
  exists probes writes,
    trace (clean_tub_data w tub_path tub remove maxb minb maxz) = probes ++ writes
    /\ Forall is_probe probes
    /\ (writes = []
        \/ (remove = true /\ manifest_writable tub = true
            /\ exists new_content, writes = [EvWriteManifest new_content])).
Proof.
  destruct (readable_cases tub) as [(c & D & Hr)|Hn].
  - rewrite (clean_tub_data_readable w tub_path tub remove maxb minb maxz c D Hr).
    pose proof (find_problems_probes w tub_path D minb maxb maxz
                  (read_catalogs (catalog_files tub))) as Hp.
    set (probes := trace _) in *.
    destruct (problems_of _ _ _ _ _ _ _) as [|p ps].
    + exists probes, []. rewrite app_nil_r. auto.
    + destruct remove.
      * destruct (manifest_writable tub).
        -- do 2 eexists. split; [reflexivity|]. split; [exact Hp|].
           right. eauto.
        -- exists probes, []. rewrite app_nil_r. auto.
      * exists probes, []. rewrite app_nil_r. auto.
  - destruct (clean_tub_data_unreadable w tub_path tub remove maxb minb maxz Hn)
      as [-> _].
    exists [], []. auto.
Qed.

(** X10.  The two loops never raise: every position looked up in the
    record list is a position of it.  So a run never ends with an
    [IndexError]. *)
Theorem audit_never_index_error (w : World) (tub_path : text) (tub : Tub)
    (remove : bool) (maxb minb : F64.float) (maxz : Z)
    (D : gset Z) (recs : list record) :
  (exists probs, value (find_problems w tub_path D minb maxb maxz recs) = Ok probs)
  /\ value (clean_tub_data w tub_path tub remove maxb minb maxz) <> Raise IndexError.
Proof.
  split; [eexists; apply find_problems_value|].
  destruct (readable_cases tub) as [(c & D0 & Hr)|Hn].
  - rewrite (clean_tub_data_readable w tub_path tub remove maxb minb maxz c D0 Hr).
    destruct (problems_of _ _ _ _ _ _ _); [discriminate|].
    destruct remove; [destruct (manifest_writable tub)|]; discriminate.
  - destruct (clean_tub_data_unreadable w tub_path tub remove maxb minb maxz Hn)
      as [_ [->|[why ->]]]; discriminate.
Qed.

(** X11.  Every entry of the problem list stands for a record of the
    catalogs that names an image: a record without an image name is
    never reported. *)
Theorem problems_are_records_with_images (w : World) (tub_path : text)
    (D : gset Z) (minb maxb : F64.float) (maxz : Z) (recs : list record) :
  returns (find_problems w tub_path D minb maxb maxz recs)
    (Forall (fun e => exists r, r ∈ recs /\ problem_index e = _index r
                                /\ has_image r)).
Proof.
  unfold returns. rewrite find_problems_value.
  destruct (problems_of_shape w tub_path D minb maxb maxz recs)
    as (zeros & -> & Hz & _ & _).
  apply Forall_app. split.
  - apply Forall_forall. intros e He.
    destruct (first_entries_shape w tub_path D minb maxb recs e He)
      as (r & Hr & Hi & Himg & _). eauto.
  - eapply Forall_impl; [exact Hz|]. intros e He.
    now destruct (zero_ok_shape w tub_path D minb maxb recs e He) as [H _].
Qed.

(** X12.  When the records have pairwise different indexes, so have the
    entries of the problem list: a record is reported once, under the
    first reason found. *)
Theorem problem_indexes_unique (w : World) (tub_path : text)
    (D : gset Z) (minb maxb : F64.float) (maxz : Z) (recs : list record) :
  NoDup (map _index recs) ->
  returns (find_problems w tub_path D minb maxb maxz recs)
    (fun probs => NoDup (map problem_index probs)).
Proof.
  intros Hnd. unfold returns. rewrite find_problems_value.
  destruct (problems_of_shape w tub_path D minb maxb maxz recs)
    as (zeros & -> & _ & Hz & Hnew).
  rewrite map_app. apply NoDup_app. split; [|split].
  - now apply first_entries_NoDup.
  - intros i Hi Hi'. exact (Hnew i Hi' Hi).
  - exact Hz.
Qed.

(** X12 on a straight run of three frames with the indexes 0, 1, 2. *)
Lemma problem_indexes_unique_witness :
  returns (find_problems Examples.bright_world Examples.tub_path ∅
             (F64.of_Z 20) (F64.of_Z 250) 2
             Examples.straight_run)
    (fun probs => NoDup (map problem_index probs)).
Proof.
  apply (problem_indexes_unique Examples.bright_world Examples.tub_path ∅
           (F64.of_Z 20) (F64.of_Z 250) 2 Examples.straight_run).
  vm_compute. repeat constructor; intros H; inversion H; subst;
    repeat match goal with
           | H : _ ∈ _ |- _ => inversion H; clear H; subst
           end.
Defined.

(** X13.  The problem list is the entries of the first loop followed by
    the zero-angle entries: no other reason comes after a zero-angle
    entry. *)
Theorem zero_angle_entries_come_last (w : World) (tub_path : text)
    (D : gset Z) (minb maxb : F64.float) (maxz : Z) (recs : list record) :
  returns (find_problems w tub_path D minb maxb maxz recs)
    (fun probs => exists first zeros,
       probs = first ++ zeros
       /\ value (for_each (check_record w tub_path D minb maxb) recs []) = Ok first
       /\ Forall (fun e => problem_reason e <> ZeroAngleRun) first
       /\ Forall (fun e => problem_reason e = ZeroAngleRun) zeros).
Proof.
  unfold returns. rewrite find_problems_value.
  destruct (problems_of_shape w tub_path D minb maxb maxz recs)
    as (zeros & -> & Hz & _ & _).
  exists (flat_map (first_entry w tub_path D minb maxb) recs), zeros.
  split; [reflexivity|]. split; [|split].
  - rewrite (for_each_value _ (record_step w tub_path D minb maxb))
      by (intros; apply check_record_value).
    now rewrite fold_record_step.
  - apply Forall_forall. intros e He.
    destruct (first_entries_shape w tub_path D minb maxb recs e He)
      as (r & _ & _ & _ & H). exact H.
  - eapply Forall_impl; [exact Hz|]. intros e He.
    now destruct (zero_ok_shape w tub_path D minb maxb recs e He) as (_ & H & _).
Qed.

(** X14.  An image reported for a zero-angle run passed every check of
    the first loop: it exists, verifies, decodes and its brightness is
    within the bounds. *)
Theorem zero_angle_entries_are_healthy (w : World) (tub_path : text)
    (D : gset Z) (minb maxb : F64.float) (maxz : Z) (recs : list record) :
  returns (find_problems w tub_path D minb maxb maxz recs)
    (fun probs => forall i p, (i, p, ZeroAngleRun) ∈ probs -> healthy w minb maxb p).
Proof.
  unfold returns. rewrite find_problems_value.
  destruct (problems_of_shape w tub_path D minb maxb maxz recs)
    as (zeros & -> & Hz & _ & _).
  intros i p Hin. apply elem_of_app in Hin. destruct Hin as [Hin|Hin].
  - destruct (first_entries_shape w tub_path D minb maxb recs _ Hin)
      as (r & _ & _ & _ & H). now contradiction H.
  - rewrite Forall_forall in Hz.
    now destruct (zero_ok_shape w tub_path D minb maxb recs _ (Hz _ Hin))
      as (_ & _ & H).
Qed.

(** X15.  Of two patches in a row the last one decides: patching with
    [S] and then with [S'] gives what patching with [S'] alone gives. *)
Theorem last_patch_wins (content : text) (S S' : gset Z) :
  patch (patch content S) S' = patch content S'.
Proof.
  unfold patch. rewrite (replacement_form S).
  apply re_sub_re_sub, dumps_body_clean.
Qed.

(** X16.  The patch keeps the lines of the manifest apart and leaves
    every line without the marker as it is, at its place. *)
Theorem patch_keeps_other_lines (content : text) (S : gset Z) (i : nat)
    (line : text) :
  split newline content !! i = Some line ->
  contains field_marker line = false ->
  split newline (patch content S) !! i = Some line
  /\ length (split newline (patch content S)) = length (split newline content).
Proof.
  intros Hi Hline. unfold patch.
  rewrite (split_re_sub _ _ (replacement_no_newline S)).
  split.
  - rewrite list_lookup_fmap, Hi. simpl. f_equal.
    now apply re_sub_without_marker.
  - apply length_map.
Qed.

(** X16 on a manifest of two lines, the field being on the second. *)
Lemma patch_keeps_other_lines_witness :
  let content := lit "[]" ++ newline :: Examples.manifest_of "1" in
  split newline (patch content {[1; 2]}) !! 0%nat = Some (lit "[]")
  /\ length (split newline (patch content {[1; 2]}))
     = length (split newline content).
Proof.
  intros content.
  apply (patch_keeps_other_lines content {[1; 2]} 0 (lit "[]")).
  - vm_compute. reflexivity.
  - vm_compute. reflexivity.
Defined.

(** X17.  A patched manifest always loads: the index read from it is the
    set written, or the empty set; [int] never raises on it. *)
Theorem patched_manifest_loads (content : text) (S : gset Z) :
  read_deleted (patch content S) = Some S
  \/ read_deleted (patch content S) = Some ∅.
Proof.
  rewrite read_deleted_patch.
  destruct (first_field_line (split newline content)) as [line|]; [|now right].
  destruct (re_search line); [now left|now right].
Qed.

(** X18.  A manifest without the marker has the empty deletion index,
    and the patch leaves it as it is: the problems found are not
    recorded in it. *)
Theorem absent_field_is_empty_index (content : text) (S : gset Z) :
  contains field_marker content = false ->
  read_deleted content = Some ∅ /\ patch content S = content.
Proof.
  intros Hc. split.
  - unfold read_deleted. rewrite read_deleted_lines_field.
    rewrite first_field_line_None; [reflexivity|].
    apply Forall_forall. intros l Hl. now apply (line_without_marker content).
  - now apply re_sub_without_marker.
Qed.

(** X18 on a manifest of two lines without the field. *)
Lemma absent_field_is_empty_index_witness :
  let content := lit "[]" ++ newline :: lit "{}" in
  read_deleted content = Some ∅ /\ patch content {[4]} = content.
Proof.
  intros content. apply (absent_field_is_empty_index content {[4]}).
  vm_compute. reflexivity.
Defined.

(** X19.  A field whose list ends in a comma makes the run raise
    [ValueError] while the manifest is read, before any image is
    probed: [int] is called on the empty piece after the comma. *)
Theorem trailing_comma_raises (w : World) (tub_path : text) (tub : Tub)
    (remove : bool) (maxb minb : F64.float) (maxz : Z)
    (content line pre group rest body : text) :
  root_exists tub = true ->
  catalog_files tub <> [] ->
  manifest tub = Some content ->
  first_field_line (split newline content) = Some line ->
  re_search line = Some (pre, group, rest) ->
  strip group = body ++ [comma] ->
  clean_tub_data w tub_path tub remove maxb minb maxz = (Raise ValueError, []).
Proof.
  intros Hroot Hcat Hman Hline Hre Hstrip.
  unfold clean_tub_data. rewrite Hroot, Hman. simpl.
  destruct (catalog_files tub) as [|f fs]; [contradiction|].
  unfold read_deleted. rewrite read_deleted_lines_field, Hline, Hre.
  now rewrite (parse_indexes_trailing_comma group body Hstrip).
Qed.

(** X19 on a manifest whose field is [[1, 2,]]. *)
Lemma trailing_comma_raises_witness :
  clean_tub_data Examples.bright_world Examples.tub_path
    (Examples.tub_of [Examples.straight_run] (Examples.manifest_of "1, 2,"))
    true (F64.of_Z 250) (F64.of_Z 20) 2
  = (Raise ValueError, []).
Proof.
  apply (trailing_comma_raises Examples.bright_world Examples.tub_path
           (Examples.tub_of [Examples.straight_run] (Examples.manifest_of "1, 2,"))
           true (F64.of_Z 250) (F64.of_Z 20) 2
           (Examples.manifest_of "1, 2,") (Examples.manifest_of "1, 2,")
           (lit "{" ++ dquote :: lit "paths" ++ dquote :: lit ": [], ")
           (lit "1, 2,") (lit "}") (lit "1, 2")).
  - reflexivity.
  - discriminate.
  - reflexivity.
  - vm_compute. reflexivity.
  - vm_compute. reflexivity.
  - vm_compute. reflexivity.
Defined.

(** X20.  A threshold that [int] rejects makes [main] raise [ValueError]
    before the tub is looked at: nothing is probed and nothing is
    written, whatever the tub holds. *)
Theorem bad_threshold_raises_first (w : World) (tub : Tub) (args : Args) :
  threshold_of (arg_max_brightness args) 250 = None
  \/ threshold_of (arg_min_brightness args) 20 = None
  \/ threshold_of (arg_max_zero_angle_count args) 25 = None ->
  main w tub args = (Raise ValueError, []).
Proof.
  intros H. unfold main. rewrite !int_or_threshold.
  destruct (threshold_of (arg_max_brightness args) 250) as [a|]; [|reflexivity].
  destruct (threshold_of (arg_min_brightness args) 20) as [b|]; [|reflexivity].
  destruct (threshold_of (arg_max_zero_angle_count args) 25) as [c|]; [|reflexivity].
  destruct H as [H|[H|H]]; discriminate.
Qed.

(** X20 with [--max_zero_angle_count=ten]. *)
Lemma bad_threshold_raises_first_witness :
  main Examples.bright_world
    (Examples.tub_of [Examples.straight_run] (Examples.manifest_of "1"))
    {| arg_tub := Examples.tub_path; arg_remove := true;
       arg_max_brightness := None; arg_min_brightness := None;
       arg_max_zero_angle_count := Some (lit "ten") |}
  = (Raise ValueError, []).
Proof.
  apply (bad_threshold_raises_first Examples.bright_world
           (Examples.tub_of [Examples.straight_run] (Examples.manifest_of "1"))
           {| arg_tub := Examples.tub_path; arg_remove := true;
              arg_max_brightness := None; arg_min_brightness := None;
              arg_max_zero_angle_count := Some (lit "ten") |}).
  right. right. vm_compute. reflexivity.
Defined.

(** X21.  The angles averaged before a zero-angle run are the absolute
    values of the angles present in [all_records[max(0, first-5):first]],
    and those averaged after it are those present in
    [all_records[last+1:last+6]], where [first] and [last] are the first
    and the last position of the run.  Every position of both windows is
    a position of the record list, so the test [i < len(all_records)] of
    line 186 never fails. *)
Theorem window_positions_in_list (recs : list record) :
  Forall (fun s =>
            let first := hd 0%nat s in
            let last := List.last s 0%nat in
            window_angles recs (pre_window first)
            = omap (fun r => F64.abs <$> user_angle r)
                (drop (first - 5) (take first recs))
            /\ window_angles recs (post_window (length recs) last)
               = omap (fun r => F64.abs <$> user_angle r)
                   (take 5 (drop (last + 1) recs))
            /\ Forall (fun i => is_Some (recs !! i))
                 (pre_window first ++ post_window (length recs) last))
    (get_zero_angle_sequences recs).
Proof.
  pose proof (get_zero_angle_sequences_bound recs) as Hb.
  eapply Forall_impl; [exact Hb|]. clear Hb. intros s Hs. cbv zeta.
  assert (Hfirst : (hd 0 s <= length recs)%nat).
  { destruct s as [|a s]; simpl; [lia|].
    apply Forall_cons in Hs as [Ha _]. lia. }
  split; [|split].
  - unfold pre_window. rewrite window_angles_slice by lia.
    rewrite take_drop_commute. do 2 f_equal. f_equal. lia.
  - unfold post_window.
    destruct (decide (List.last s 0 + 1 <= length recs)%nat) as [Hl|Hl].
    + rewrite window_angles_slice by lia.
      f_equal. set (l := drop (List.last s 0%nat + 1) recs).
      assert (Hlen : length l = (length recs - (List.last s 0%nat + 1))%nat)
        by apply length_drop.
      rewrite <- (firstn_all l) at 2. rewrite take_take. f_equal. lia.
    + replace (Nat.min (length recs) (List.last s 0%nat + 6)
               - (List.last s 0%nat + 1))%nat with 0%nat by lia.
      rewrite drop_ge by lia. reflexivity.
  - apply Forall_app. split; apply Forall_forall; intros i Hi;
      apply list_elem_of_In, in_seq in Hi; apply lookup_lt_is_Some; lia.
Qed.

(** X22.  A run that begins at the first record and ends at the last
    one has no record before or after it, so both averages are zero and
    its length alone decides: it is flagged exactly when it is longer
    than [max_zero_angle_count]. *)
Theorem lone_run_is_judged_by_length (w : World) (tub_path : text)
    (D : gset Z) (maxz : Z) (recs : list record) (probs : list problem)
    (sequence : list nat) :
  hd 0%nat sequence = 0%nat ->
  (length recs <= List.last sequence 0 + 1)%nat ->
  pre_avg recs sequence = F64.zero
  /\ post_avg recs sequence = F64.zero
  /\ check_sequence w tub_path D maxz recs probs sequence
     = if maxz <? Z.of_nat (length sequence)
       then for_each (flag_position w tub_path D recs) sequence probs
       else ret probs.
Proof.
  intros Hfirst Hlast.
  assert (Hpre : pre_avg recs sequence = F64.zero).
  { unfold pre_avg. now rewrite Hfirst. }
  assert (Hpost : post_avg recs sequence = F64.zero).
  { unfold post_avg, post_window.
    replace (Nat.min (length recs) (List.last sequence 0 + 6)
             - (List.last sequence 0 + 1))%nat with 0%nat by lia.
    reflexivity. }
  split; [exact Hpre|]. split; [exact Hpost|].
  unfold check_sequence. now rewrite Hpre, Hpost.
Qed.

(** X22 on three straight frames and their one run. *)
Lemma lone_run_is_judged_by_length_witness :
  pre_avg Examples.straight_run [0; 1; 2]%nat = F64.zero
  /\ post_avg Examples.straight_run [0; 1; 2]%nat = F64.zero
  /\ check_sequence Examples.bright_world Examples.tub_path ∅ 2
       Examples.straight_run [] [0; 1; 2]%nat
     = if 2 <? Z.of_nat (length [0; 1; 2]%nat)
       then for_each (flag_position Examples.bright_world Examples.tub_path ∅
                        Examples.straight_run) [0; 1; 2]%nat []
       else ret [].
Proof.
  apply (lone_run_is_judged_by_length Examples.bright_world Examples.tub_path ∅ 2
           Examples.straight_run [] [0; 1; 2]%nat).
  - reflexivity.
  - simpl. lia.
Defined.

(** X23.  For an angle of 0 to 180 degrees, [set_servo_angle] sets the
    channel to switch on at tick 0 and off at the tick
    [4096 * (angle * 11 + 500) / 20000] rounded down, which lies between
    102 and 507 and so within the 4096 ticks of a period. *)
Theorem servo_pulse_in_range (channel angle : Z) :
  0 <= angle <= 180 ->
  exists pulse,
    set_servo_angle channel angle = Some (SetPwm channel 0 pulse)
    /\ pulse = 4096 * (angle * 11 + 500) / 20000
    /\ 102 <= pulse <= 507.
Proof.
  intros Hr. exists (4096 * (angle * 11 + 500) / 20000).
  unfold set_servo_angle. rewrite (pulse_of_servo_range angle Hr).
  split; [reflexivity|]. split; [reflexivity|]. split.
  - apply Z.div_le_lower_bound; lia.
  - apply Z.lt_succ_r. apply Z.div_lt_upper_bound; lia.
Qed.

(** X23 at the angle the script gives the steering servo. *)
Lemma servo_pulse_in_range_witness :
  exists pulse,
    set_servo_angle 2 60 = Some (SetPwm 2 0 pulse)
    /\ pulse = 4096 * (60 * 11 + 500) / 20000
    /\ 102 <= pulse <= 507.
Proof.
  apply (servo_pulse_in_range 2 60). lia.
Defined.

(** X24.  Between 0 and 180 degrees a larger angle never gives a
    shorter pulse. *)
Theorem servo_pulse_monotone (angle angle' : Z) :
  0 <= angle -> angle <= angle' -> angle' <= 180 ->
  exists pulse pulse',
    pulse_of angle = Some pulse /\ pulse_of angle' = Some pulse'
    /\ pulse <= pulse'.
Proof.
  intros H0 Hle H180.
  rewrite (pulse_of_servo_range angle), (pulse_of_servo_range angle') by lia.
  do 2 eexists. split; [reflexivity|]. split; [reflexivity|].
  apply Z.div_le_mono; lia.
Qed.

(** X24 at the two angles of the script. *)
Lemma servo_pulse_monotone_witness :
  exists pulse pulse',
    pulse_of 60 = Some pulse /\ pulse_of 90 = Some pulse' /\ pulse <= pulse'.
Proof.
  apply (servo_pulse_monotone 60 90); lia.
Defined.
